(** * Crossword generator: the CSP core of generate.py

    A shallow embedding of class [CrosswordCreator] (src/generate.py):
    node consistency, [revise], [ac3], [consistent], the two ordering
    heuristics and [backtrack], together with the properties the
    specification states about them. *)

From stdpp Require Import gmap strings list fin_maps sorting.

Open Scope string_scope.

(** ** Data model *)

(** The slots of the grid.  Class [Variable] lives in crossword.py; the
    creator reads its four attributes [i], [j], [direction], [length],
    which are also its identity (hash and equality). *)
Inductive Direction := ACROSS | DOWN.

Record Var := mkVar {
  var_i : nat;
  var_j : nat;
  var_direction : Direction;
  var_length : nat
}.

#[global] Instance Direction_eq_dec : EqDecision Direction.
Proof. solve_decision. Defined.

#[global] Instance Var_eq_dec : EqDecision Var.
Proof. solve_decision. Defined.

Definition Var_to_tuple (v : Var) : nat * nat * bool * nat :=
  (var_i v, var_j v,
   match var_direction v with ACROSS => true | DOWN => false end,
   var_length v).

Definition Var_of_tuple (t : nat * nat * bool * nat) : Var :=
  let '(i, j, d, n) := t in mkVar i j (if d then ACROSS else DOWN) n.

#[global] Instance Var_countable : Countable Var.
Proof.
  refine (inj_countable' Var_to_tuple Var_of_tuple _).
  intros [i j [] n]; reflexivity.
Defined.

(** An arc is an ordered pair of slots. *)
Abbreviation Arc := (Var * Var)%type.

(** The crossword the creator is built around ([self.crossword]).  Its
    class is defined in crossword.py, so the four members the creator
    reads are taken as they are: the slot set, the vocabulary, the
    [overlaps] table ([None] when two slots do not cross) and the
    [neighbors] method. *)
Record Crossword := mkCrossword {
  variables : gset Var;
  words : gset string;
  overlaps : Var → Var → option (nat * nat);
  neighbors : Var → gset Var
}.

(** What a crossword handed to the creator satisfies: a neighbour of a
    slot is another slot of the grid, and the overlap of a slot with a
    neighbour is a pair of positions inside the two slots. *)
Record wf_crossword (cw : Crossword) : Prop := {
  wf_neighbor_var : ∀ x y, y ∈ neighbors cw x → y ∈ variables cw;
  wf_neighbor_ne : ∀ x y, y ∈ neighbors cw x → y ≠ x;
  wf_neighbor_overlap : ∀ x y, y ∈ neighbors cw x →
    ∃ a b, overlaps cw x y = Some (a, b) ∧ a < var_length x ∧ b < var_length y
}.

(** [self.domains]: a dict from slot to the set of words still possible. *)
Abbreviation Domains := (gmap Var (gset string)).

(** An assignment: a dict from slot to word. *)
Abbreviation Assignment := (gmap Var string).

(** ** Exceptions and the creator's state *)

(** What the Python code can raise.  [OutOfFuel] is not a Python
    exception: it marks the exhaustion of the recursion budget that
    [backtrack] takes in this development. *)
Inductive exn := KeyError | IndexError | TypeError | OutOfFuel.

Inductive res (A : Type) : Type :=
| Ok (a : A)
| Raise (e : exn).
Arguments Ok {A} a.
Arguments Raise {A} e.

(** A method of the creator: it reads and writes [self.domains] and
    either returns a value or raises. *)
Definition M (A : Type) : Type := Domains → res (A * Domains).

Definition ret {A} (a : A) : M A := λ d, Ok (a, d).

Definition bind {A B} (m : M A) (k : A → M B) : M B := λ d,
  match m d with
  | Ok (a, d') => k a d'
  | Raise e => Raise e
  end.

Notation "'let*' x ':=' m 'in' k" := (bind m (λ x, k))
  (at level 10, x pattern, m at level 100, k at level 200).

Definition raise {A} (e : exn) : M A := λ _, Raise e.

(** [self.domains[x]] *)
Definition get_domain (x : Var) : M (gset string) := λ d,
  match d !! x with
  | Some D => Ok (D, d)
  | None => Raise KeyError
  end.

(** [self.domains[x].remove(word)]: [set.remove] raises [KeyError] when
    the word is not a member. *)
Definition domain_remove (x : Var) (word : string) : M unit := λ d,
  match d !! x with
  | Some D =>
      if decide (word ∈ D) then Ok (tt, <[x := D ∖ {[word]}]> d)
      else Raise KeyError
  | None => Raise KeyError
  end.

(** [s[k]] for a non-negative index. *)
Definition str_index (s : string) (k : nat) : res Ascii.ascii :=
  match String.get k s with
  | Some c => Ok c
  | None => Raise IndexError
  end.

(** [for x in l: body(x)] *)
Fixpoint for_each {A} (l : list A) (body : A → M unit) : M unit :=
  match l with
  | [] => ret tt
  | x :: l' => let* _ := body x in for_each l' body
  end.

(** ** The creator *)

(** [__init__]: every slot starts with a copy of the whole vocabulary. *)
Definition init_domains (cw : Crossword) : Domains :=
  gset_to_gmap (words cw) (variables cw).

(** [enforce_node_consistency] *)
Definition enforce_node_consistency (cw : Crossword) : M unit :=
  for_each (elements (variables cw)) (λ variable,
    for_each (elements (words cw)) (λ word,
      if decide (var_length variable ≠ String.length word)
      then domain_remove variable word
      else ret tt)).

(** [self.crossword.overlaps[x, y]] unpacked into a pair: unpacking
    [None] raises [TypeError]. *)
Definition get_overlap (cw : Crossword) (x y : Var) : M (nat * nat) :=
  match overlaps cw x y with
  | Some ab => ret ab
  | None => raise TypeError
  end.

(** [word[a] == checkword[b]] *)
Definition same_letter (word : string) (a : nat) (checkword : string) (b : nat)
  : M bool := λ d,
  match str_index word a with
  | Ok c1 =>
      match str_index checkword b with
      | Ok c2 => Ok (bool_decide (c1 = c2), d)
      | Raise e => Raise e
      end
  | Raise e => Raise e
  end.

(** The inner loop of [revise] (lines 129-131): it runs over the whole of
    [self.domains[y]], without a break. *)
Fixpoint revise_check (a b : nat) (word : string) (l : list string)
    (check : nat) : M nat :=
  match l with
  | [] => ret check
  | checkword :: l' =>
      let* same := same_letter word a checkword b in
      revise_check a b word l' (if (same : bool) then 1 else check)
  end.

(** The outer loop of [revise] (lines 128-135), on the locals
    [revision] and [check]. *)
Fixpoint revise_loop (x y : Var) (a b : nat) (l : list string)
    (revision : bool) (check : nat) : M bool :=
  match l with
  | [] => ret revision
  | word :: l' =>
      let* Dy := get_domain y in
      let* check := revise_check a b word (elements Dy) check in
      let* revision :=
        if decide (check = 0)
        then let* _ := domain_remove x word in ret true
        else ret revision in
      let check := 0 in
      revise_loop x y a b l' revision check
  end.

(** [revise] *)
Definition revise (cw : Crossword) (x y : Var) : M bool :=
  let revision := false in
  let check := 0 in
  let* (a, b) := get_overlap cw x y in
  let* Dx := get_domain x in
  let words := Dx in
  revise_loop x y a b (elements words) revision check.

(** Lines 151-155 of [ac3]: the queue is filled with every arc of the
    grid; the parameter [arcs] is not read. *)
Definition initial_queue (cw : Crossword) (arcs : option (list Arc))
  : gset Arc :=
  foldl (λ queue x,
           let neighbor := neighbors cw x in
           foldl (λ queue y, {[(x, y)]} ∪ queue) queue (elements neighbor))
        ∅ (elements (variables cw)).

(** [queue.pop()] removes an arbitrary member of the set: which one is
    left to [pick], a function of the members; popping an empty set
    raises [KeyError]. *)
Definition set_pop (pick : list Arc → nat) (queue : gset Arc)
  : M (Arc * gset Arc) :=
  let l := elements queue in
  match l !! (pick l `mod` length l) with
  | Some arc => ret (arc, queue ∖ {[arc]})
  | None => raise KeyError
  end.

(** Lines 162-164 of [ac3]. *)
Definition enqueue_neighbors (cw : Crossword) (x y : Var) (queue : gset Arc)
  : gset Arc :=
  foldl (λ queue z, if decide (z ≠ y) then {[(z, x)]} ∪ queue else queue)
        queue (elements (neighbors cw x)).

(** [ac3], with the queue as it is when the function returns next to the
    returned value.  [return True] (line 165) is a statement of the body
    of the [while] loop, on the level of [if self.revise(x, y)], so every
    path through the body leaves the function: the loop is entered at
    most once and is written here as a conditional.  [None] is the value
    of falling off the end of the function. *)
Definition ac3_run (cw : Crossword) (arcs : option (list Arc))
    (pick : list Arc → nat) : M (option bool * gset Arc) :=
  let queue := initial_queue cw arcs in
  if decide (size queue ≠ 0) then
    let* ((x, y), queue) := set_pop pick queue in
    let* revised := revise cw x y in
    if (revised : bool) then
      let* Dx := get_domain x in
      if decide (size Dx = 0) then ret (Some false, queue)
      else
        let queue := enqueue_neighbors cw x y queue in
        ret (Some true, queue)
    else ret (Some true, queue)
  else ret (None, queue).

Definition ac3 (cw : Crossword) (arcs : option (list Arc))
    (pick : list Arc → nat) : M (option bool) :=
  let* r := ac3_run cw arcs pick in ret r.1.

(** [assignment_complete] *)
Definition assignment_complete (cw : Crossword) (assignment : Assignment)
  : bool :=
  forallb (λ x, bool_decide (is_Some (assignment !! x)))
          (elements (variables cw)).

(** Lines 189-193 of [consistent]: [true] when the loops reach
    [return False].  The keys of the dict are run through with their
    values. *)
Definition same_word_twice (assignment : Assignment) : bool :=
  existsb (λ x, existsb (λ y,
             bool_decide (x.1 ≠ y.1) && bool_decide (x.2 = y.2))
           (map_to_list assignment))
          (map_to_list assignment).

(** Lines 196-200 of [consistent], for one slot [x] holding [wx]:
    [false] when the loop reaches [return False], [true] when it runs to
    its end. *)
Fixpoint consistent_neighbors (cw : Crossword) (assignment : Assignment)
    (x : Var) (wx : string) (l : list Var) : M bool :=
  match l with
  | [] => ret true
  | var :: l' =>
      let* (a, b) := get_overlap cw x var in
      match assignment !! var with
      | Some wvar =>
          let* same := same_letter wx a wvar b in
          if (same : bool) then consistent_neighbors cw assignment x wx l'
          else ret false
      | None => consistent_neighbors cw assignment x wx l'
      end
  end.

(** Lines 194-200 of [consistent]. *)
Fixpoint consistent_loop (cw : Crossword) (assignment : Assignment)
    (l : list (Var * string)) : M bool :=
  match l with
  | [] => ret true
  | (x, wx) :: l' =>
      let neighbor := neighbors cw x in
      let* ok := consistent_neighbors cw assignment x wx (elements neighbor) in
      if (ok : bool) then consistent_loop cw assignment l' else ret false
  end.

(** [consistent] *)
Definition consistent (cw : Crossword) (assignment : Assignment) : M bool :=
  if same_word_twice assignment then ret false
  else consistent_loop cw assignment (map_to_list assignment).

(** [sorted(l, key=...)]: Python's sort is stable and compares with [<]
    alone; [lt x y] is that comparison of the keys. *)
Fixpoint insert_sorted {A} (lt : A → A → bool) (x : A) (l : list A) : list A :=
  match l with
  | [] => [x]
  | y :: l' => if lt y x then y :: insert_sorted lt x l' else x :: l
  end.

Definition sorted {A} (lt : A → A → bool) (l : list A) : list A :=
  foldr (insert_sorted lt) [] l.

(** [[f(x) for x in l]] *)
Fixpoint list_comp {A B} (f : A → M B) (l : list A) : M (list B) :=
  match l with
  | [] => ret []
  | x :: l' =>
      let* y := f x in
      let* ys := list_comp f l' in
      ret (y :: ys)
  end.

(** Lines 218-221 of [order_domain_values]: [and] evaluates
    [self.domains[neighbor]] only for an unassigned neighbour. *)
Fixpoint count_rule_out (assignment : Assignment) (val : string)
    (l : list Var) (count : nat) : M nat :=
  match l with
  | [] => ret count
  | neighbor :: l' =>
      match assignment !! neighbor with
      | None =>
          let* Dn := get_domain neighbor in
          count_rule_out assignment val l'
            (if decide (val ∈ Dn) then count + 1 else count)
      | Some _ => count_rule_out assignment val l' count
      end
  end.

(** [order_domain_values] *)
Definition order_domain_values (cw : Crossword) (var : Var)
    (assignment : Assignment) : M (list string) :=
  let* words := get_domain var in
  let neighbors := neighbors cw var in
  let* num_rule_out :=
    list_comp (λ val, count_rule_out assignment val (elements neighbors) 0)
              (elements words) in
  let temp := zip (elements words) num_rule_out in
  let temp := sorted (λ p q, (p.2 <? q.2)%nat) temp in
  ret (temp.*1).

(** The comparison function of [select_unassigned_variable]. *)
Definition compare (x y : Var * nat * nat) : Z :=
  if decide (x.1.2 ≠ y.1.2) then
    if decide (y.1.2 < x.1.2) then 1%Z else (-1)%Z
  else
    if decide (y.2 < x.2) then (-1)%Z
    else if decide (x.2 < y.2) then 1%Z
    else 0%Z.

(** [select_unassigned_variable]; [temp[0]] of an empty list raises
    [IndexError]. *)
Definition select_unassigned_variable (cw : Crossword)
    (assignment : Assignment) : M Var :=
  let variable := elements (variables cw ∖ dom assignment) in
  let* num_val := list_comp (λ var, let* D := get_domain var in ret (size D)) variable in
  let degree := (λ var, size (neighbors cw var)) <$> variable in
  let temp := zip (zip variable num_val) degree in
  let temp := sorted (λ x y, bool_decide (compare x y < 0)%Z) temp in
  match temp with
  | [] => raise IndexError
  | t :: _ => ret t.1.1
  end.

(** [del assignment[var]] *)
Definition dict_del (var : Var) (assignment : Assignment) : M Assignment :=
  match assignment !! var with
  | Some _ => ret (delete var assignment)
  | None => raise KeyError
  end.

(** The [for] loop of [backtrack] (lines 277-286); [rec] is the recursive
    call.  The dict [assignment] is one object, changed in place, so its
    content is passed on and handed back. *)
Fixpoint backtrack_loop (rec : Assignment → M (bool * Assignment))
    (cw : Crossword) (var : Var) (values : list string)
    (assignment : Assignment) : M (bool * Assignment) :=
  match values with
  | [] => ret (false, assignment)
  | value :: values' =>
      let assignment := <[var := value]> assignment in
      let* ok := consistent cw assignment in
      if (ok : bool) then
        let assignment := <[var := value]> assignment in
        let* (found, assignment) := rec assignment in
        if (found : bool) then ret (true, assignment)
        else
          let* assignment := dict_del var assignment in
          backtrack_loop rec cw var values' assignment
      else
        let* assignment := dict_del var assignment in
        backtrack_loop rec cw var values' assignment
  end.

(** [backtrack].  The result is a flag and the content of the dict on
    return: [true] when the function returns the dict it was given (now
    complete), [false] when it returns [None].  [fuel] bounds the depth
    of the recursion. *)
Fixpoint backtrack (fuel : nat) (cw : Crossword) (assignment : Assignment)
  : M (bool * Assignment) :=
  match fuel with
  | 0 => raise OutOfFuel
  | S fuel' =>
      if assignment_complete cw assignment then ret (true, assignment)
      else
        let* var := select_unassigned_variable cw assignment in
        let* values := order_domain_values cw var assignment in
        backtrack_loop (backtrack fuel' cw) cw var values assignment
  end.

(** [solve]: the value of [self.ac3()] is dropped. *)
Definition solve (fuel : nat) (cw : Crossword) (pick : list Arc → nat)
  : M (option Assignment) :=
  let* _ := enforce_node_consistency cw in
  let* _ := ac3 cw None pick in
  let* (found, assignment) := backtrack fuel cw ∅ in
  ret (if (found : bool) then Some assignment else None).

(** The 2D array that [letter_grid] builds: a list of rows, [None] in a
    cell where nothing is written. *)
Abbreviation Letters := (list (list (option Ascii.ascii))).

(** A computation that does not touch the creator's state. *)
Definition lift {A} (r : res A) : M A := λ d,
  match r with
  | Ok a => Ok (a, d)
  | Raise e => Raise e
  end.

(** [letters[i][j] = c]: a row or a column out of range raises
    [IndexError]. *)
Definition set_letter (i j : nat) (c : Ascii.ascii) (letters : Letters)
  : M Letters :=
  match letters !! i with
  | Some row =>
      if decide (j < length row)%nat
      then ret (<[i := <[j := Some c]> row]> letters)
      else raise IndexError
  | None => raise IndexError
  end.

(** Lines 29-32 of [letter_grid]: the loop over [range(len(word))]. *)
Fixpoint write_word (variable : Var) (word : string) (ks : list nat)
    (letters : Letters) : M Letters :=
  match ks with
  | [] => ret letters
  | k :: ks' =>
      let direction := var_direction variable in
      let i := var_i variable + (if decide (direction = DOWN) then k else 0) in
      let j := var_j variable + (if decide (direction = ACROSS) then k else 0) in
      let* c := lift (str_index word k) in
      let* letters := set_letter i j c letters in
      write_word variable word ks' letters
  end.

(** Lines 27-32 of [letter_grid]: the loop over [assignment.items()]. *)
Fixpoint write_words (items : list (Var * string)) (letters : Letters)
  : M Letters :=
  match items with
  | [] => ret letters
  | (variable, word) :: items' =>
      let* letters :=
        write_word variable word (seq 0 (String.length word)) letters in
      write_words items' letters
  end.

(** [letter_grid].  [width] and [height] are [self.crossword.width] and
    [self.crossword.height]; the rows of the fresh array are separate
    lists. *)
Definition letter_grid (width height : nat) (assignment : Assignment)
  : M Letters :=
  let letters := replicate height (replicate width None) in
  write_words (map_to_list assignment) letters.

(** ** Notions of the specification *)

(** The unary constraint of a slot. *)
Definition right_length (s : Var) (w : string) : Prop :=
  String.length w = var_length s.

#[global] Instance right_length_dec s w : Decision (right_length s w).
Proof. unfold right_length. apply _. Defined.

(** [word[a]] and [checkword[b]] exist and are the same letter. *)
Definition letters_match (word : string) (a : nat) (checkword : string)
    (b : nat) : Prop :=
  ∃ c, String.get a word = Some c ∧ String.get b checkword = Some c.

(** [word[a] == checkword[b]] can be evaluated. *)
Definition indexable (word : string) (a : nat) (checkword : string)
    (b : nat) : Prop :=
  is_Some (String.get a word) ∧ is_Some (String.get b checkword).

#[global] Instance letters_match_dec word a checkword b :
  Decision (letters_match word a checkword b).
Proof.
  unfold letters_match.
  destruct (String.get a word) as [c1|] eqn:H1;
    [destruct (String.get b checkword) as [c2|] eqn:H2;
       [destruct (decide (c1 = c2)) as [->|Hne]|]|].
  - left. eauto.
  - right. intros (c & [= <-] & [= <-]). done.
  - right. intros (c & _ & [=]).
  - right. intros (c & [=] & _).
Defined.

#[global] Instance indexable_dec word a checkword b :
  Decision (indexable word a checkword b).
Proof. unfold indexable. apply _. Defined.

(** Some word of [Dy] carries at [b] the letter that [word] has at [a]. *)
Definition supported (a b : nat) (Dy : gset string) (word : string) : Prop :=
  set_Exists (λ checkword, letters_match word a checkword b) Dy.

#[global] Instance supported_dec a b Dy word : Decision (supported a b Dy word).
Proof. unfold supported. apply _. Defined.

(** Every comparison that [revise] makes for [word] can be evaluated. *)
Definition comparable (a b : nat) (Dy : gset string) (word : string) : Prop :=
  set_Forall (λ checkword, indexable word a checkword b) Dy.

#[global] Instance comparable_dec a b Dy word : Decision (comparable a b Dy word).
Proof. unfold comparable. apply _. Defined.

(** Invariant I2: along every arc, every word of the first domain has a
    support in the second. *)
Definition arc_consistent (cw : Crossword) (d : Domains) : Prop :=
  ∀ x y a b (Dx Dy : gset string),
    x ∈ variables cw → y ∈ neighbors cw x →
    overlaps cw x y = Some (a, b) →
    d !! x = Some Dx → d !! y = Some Dy →
    ∀ w, w ∈ Dx → supported a b Dy w.

(** Invariant I3, first half: no word is held by two slots. *)
Definition words_distinct (assignment : Assignment) : Prop :=
  ∀ x y wx wy,
    assignment !! x = Some wx → assignment !! y = Some wy → x ≠ y → wx ≠ wy.

(** The word [wx] of slot [x] and the word that [var] holds, if it holds
    one, carry the same letter in the cell where the two slots cross. *)
Definition agree_at (cw : Crossword) (assignment : Assignment)
    (x : Var) (wx : string) (var : Var) : Prop :=
  ∀ wvar a b,
    assignment !! var = Some wvar → overlaps cw x var = Some (a, b) →
    letters_match wx a wvar b.

(** The check of [x] against [var] can be evaluated: the overlap is a
    pair and, when [var] is assigned, both letters exist. *)
Definition evaluable_at (cw : Crossword) (assignment : Assignment)
    (x : Var) (wx : string) (var : Var) : Prop :=
  ∃ a b, overlaps cw x var = Some (a, b) ∧
         ∀ wvar, assignment !! var = Some wvar → indexable wx a wvar b.

(** Invariant I3, second half: every assigned slot agrees with each of
    its assigned neighbours on the letter of the shared cell. *)
Definition overlaps_agree (cw : Crossword) (assignment : Assignment) : Prop :=
  ∀ x wx var,
    assignment !! x = Some wx → var ∈ neighbors cw x →
    agree_at cw assignment x wx var.

(** Invariant I1 for an assignment: every word fills its slot. *)
Definition fits (assignment : Assignment) : Prop :=
  ∀ x w, assignment !! x = Some w → right_length x w.

(** Every slot of the grid holds a word, and nothing else does. *)
Definition total (cw : Crossword) (assignment : Assignment) : Prop :=
  dom assignment = variables cw.

(** Invariant I4: the slots are the same and no domain has gained a
    word. *)
Definition shrinks (d d' : Domains) : Prop :=
  ∀ s, option_Forall2 (⊆) (d' !! s) (d !! s).

(** Invariant I1 on the domain store: the keys are the slots of the grid
    and every word of a domain fills its slot. *)
Definition domains_fit (cw : Crossword) (d : Domains) : Prop :=
  dom d = variables cw ∧
  ∀ s (D : gset string) w, d !! s = Some D → w ∈ D → right_length s w.

(** Every assigned word is in the domain of its slot. *)
Definition drawn_from (d : Domains) (assignment : Assignment) : Prop :=
  ∀ x w, assignment !! x = Some w →
         ∃ D : gset string, d !! x = Some D ∧ w ∈ D.

(** What [backtrack] keeps true of the assignment it works on: its keys
    are slots, its words come from the domains, and it passes the
    consistency check. *)
Definition admissible (cw : Crossword) (d : Domains)
    (assignment : Assignment) : Prop :=
  dom assignment ⊆ variables cw ∧ drawn_from d assignment ∧
  words_distinct assignment ∧ overlaps_agree cw assignment.

(** The outcome of a call of [backtrack] on [assignment]: the dict is
    complete and admissible when the call found a solution, and is back
    to what it was when it did not. *)
Definition backtrack_post (cw : Crossword) (d : Domains)
    (assignment : Assignment) (r : bool * Assignment) : Prop :=
  if r.1 then total cw r.2 ∧ admissible cw d r.2 else r.2 = assignment.

(** A method that leaves [self.domains] as it found it. *)
Definition preserves {A} (m : M A) : Prop :=
  ∀ (d d' : Domains) a, m d = Ok (a, d') → d' = d.

(** The number that [order_domain_values] attaches to [val]: the
    unassigned neighbours of [var] whose domain holds [val]. *)
Definition rule_out_count (cw : Crossword) (d : Domains)
    (assignment : Assignment) (var : Var) (val : string) : nat :=
  length (filter (λ n, assignment !! n = None ∧ val ∈ d !!! n)
                 (elements (neighbors cw var))).

(** A fill of the grid from the vocabulary: every slot holds a word of
    the vocabulary that has its length, crossing slots agree on the
    shared letter and no word is used twice. *)
Definition solution (cw : Crossword) (assignment : Assignment) : Prop :=
  total cw assignment ∧
  (∀ s w, assignment !! s = Some w → w ∈ words cw) ∧
  fits assignment ∧ words_distinct assignment ∧
  overlaps_agree cw assignment.

(** No total admissible assignment contains [assignment]. *)
Definition dead_end (cw : Crossword) (d : Domains)
    (assignment : Assignment) : Prop :=
  ∀ a', assignment ⊆ a' → total cw a' → admissible cw d a' → False.

(** The cell of the [k]-th letter of a slot. *)
Definition cell (variable : Var) (k : nat) : nat * nat :=
  (var_i variable + (if decide (var_direction variable = DOWN) then k else 0),
   var_j variable + (if decide (var_direction variable = ACROSS) then k else 0)).

(** [letters[i][j]], when the cell exists. *)
Definition letter_at (letters : Letters) (i j : nat)
  : option (option Ascii.ascii) :=
  match letters !! i with
  | Some row => row !! j
  | None => None
  end.

(** [height] rows of [width] cells. *)
Definition shape (width height : nat) (letters : Letters) : Prop :=
  length letters = height ∧
  ∀ i row, letters !! i = Some row → length row = width.

(** The cell lies in a grid of [height] rows and [width] columns. *)
Definition in_grid (width height : nat) (ij : nat * nat) : Prop :=
  (ij.1 < height ∧ ij.2 < width)%nat.

#[global] Instance in_grid_dec width height ij :
  Decision (in_grid width height ij).
Proof. unfold in_grid. apply _. Defined.

(** The grid shows exactly the letters that [W] lists. *)
Definition shows (width height : nat) (letters : Letters)
    (W : nat → nat → Ascii.ascii → Prop) : Prop :=
  shape width height letters ∧
  ∀ i j c, letter_at letters i j = Some (Some c) ↔ W i j c.

(** ** Example grids *)

(** Two crossing slots: [X0] across and [Y0] down, both starting in the
    top-left cell. *)
Definition X0 : Var := mkVar 0 0 ACROSS 2.
Definition Y0 : Var := mkVar 0 0 DOWN 3.

Definition cw0 : Crossword := {|
  variables := {[X0; Y0]};
  words := {["AB"; "CD"; "AXX"; "EFF"]};
  overlaps := λ x y,
    if decide (x = X0 ∧ y = Y0) then Some (0, 0)
    else if decide (x = Y0 ∧ y = X0) then Some (0, 0) else None;
  neighbors := λ x,
    if decide (x = X0) then {[Y0]}
    else if decide (x = Y0) then {[X0]} else ∅
|}.

(** The domains of [cw0] once node consistency is enforced. *)
Definition d0 : Domains :=
  {[ X0 := {["AB"; "CD"]}; Y0 := {["AXX"; "EFF"]} ]}.

(** A grid with one slot and no crossing. *)
Definition cw1 : Crossword := {|
  variables := {[X0]};
  words := {["AB"; "CD"; "AXX"]};
  overlaps := λ _ _, None;
  neighbors := λ _, ∅
|}.

(** The crossing grid with a vocabulary that has no word for either
    slot. *)
Definition cw2 : Crossword := {|
  variables := variables cw0;
  words := {["ABCD"]};
  overlaps := overlaps cw0;
  neighbors := neighbors cw0
|}.

(** The domains of [cw2] once node consistency is enforced. *)
Definition d2 : Domains := {[ X0 := ∅; Y0 := ∅ ]}.

(** A solution of [cw0]. *)
Definition a0 : Assignment := {[ X0 := "AB"; Y0 := "AXX" ]}.

(** Two crossing slots of three cells: [X3] across the top row, [Y3] down
    the last column; the vocabulary has a word of two letters. *)
Definition X3 : Var := mkVar 0 0 ACROSS 3.
Definition Y3 : Var := mkVar 0 2 DOWN 3.

Definition cw3 : Crossword := {|
  variables := {[X3; Y3]};
  words := {["AB"; "CAT"; "TAG"]};
  overlaps := λ x y,
    if decide (x = X3 ∧ y = Y3) then Some (2, 0)
    else if decide (x = Y3 ∧ y = X3) then Some (0, 2) else None;
  neighbors := λ x,
    if decide (x = X3) then {[Y3]}
    else if decide (x = Y3) then {[X3]} else ∅
|}.

(** The crossing grid [cw0] with a vocabulary of one word, for [X0]. *)
Definition cw4 : Crossword := {|
  variables := variables cw0;
  words := {["AB"]};
  overlaps := overlaps cw0;
  neighbors := neighbors cw0
|}.

(** The domains of [cw4] once node consistency is enforced. *)
Definition d4 : Domains := {[ X0 := {["AB"]}; Y0 := ∅ ]}.

(** ** Reasoning about methods *)

Lemma bind_Ok {A B} (m : M A) (k : A → M B) d r :
  bind m k d = Ok r ↔ ∃ a d', m d = Ok (a, d') ∧ k a d' = Ok r.
Proof.
  unfold bind. split.
  - destruct (m d) as [[a d']|e]; [eauto | discriminate].
  - intros (a & d' & -> & Hk). exact Hk.
Qed.

Lemma ret_Ok {A} (a b : A) d d' : ret a d = Ok (b, d') ↔ a = b ∧ d = d'.
Proof. unfold ret. split; [intros [= -> ->] | intros [-> ->]]; done. Qed.

Lemma get_domain_Ok x d D d' :
  get_domain x d = Ok (D, d') ↔ d !! x = Some D ∧ d' = d.
Proof.
  unfold get_domain. destruct (d !! x) as [D0|]; split;
    try intros [= -> ->]; try intros [[= ->] ->]; try done.
Qed.

Lemma domain_remove_Ok x w d u d' :
  domain_remove x w d = Ok (u, d') ↔
  ∃ D, d !! x = Some D ∧ w ∈ D ∧ d' = <[x := D ∖ {[w]}]> d.
Proof.
  unfold domain_remove. split.
  - destruct (d !! x) as [D|]; [|discriminate].
    case_decide; [|discriminate]. intros [= <-]. eauto.
  - intros (D & -> & Hw & ->). rewrite decide_True by done. by destruct u.
Qed.

(** ** Node consistency *)

Section node_consistency.
Context (cw : Crossword).

(** The inner loop, on a slot whose domain still holds every word of
    the wrong length that is to come. *)
Lemma node_consistency_words (s : Var) (l : list string) :
  ∀ (D : gset string) (d : Domains),
    NoDup l → d !! s = Some D →
    (∀ w, w ∈ l → ¬ right_length s w → w ∈ D) →
    for_each l (λ word,
      if decide (var_length s ≠ String.length word)
      then domain_remove s word else ret tt) d
    = Ok (tt, <[s := D ∖ list_to_set (filter (λ w, ¬ right_length s w) l)]> d).
Proof.
  induction l as [|w l IH]; intros D d Hnd Hs Hin; cbn [for_each].
  - unfold ret. f_equal. f_equal. rewrite filter_nil. simpl.
    rewrite difference_empty_L. by rewrite insert_id.
  - apply NoDup_cons in Hnd as [Hw Hnd].
    apply bind_Ok. case_decide as Hlen.
    + exists tt, (<[s := D ∖ {[w]}]> d). split.
      * apply domain_remove_Ok. exists D. split_and!; [done| |done].
        apply Hin; [left | unfold right_length; congruence].
      * rewrite (IH (D ∖ {[w]})); [|done|by rewrite lookup_insert_eq|].
        -- rewrite insert_insert_eq. do 3 f_equal.
           rewrite filter_cons_True by (unfold right_length; congruence).
           rewrite list_to_set_cons. apply set_eq. intros u.
           rewrite !elem_of_difference, elem_of_union, elem_of_singleton.
           tauto.
        -- intros w' Hw' Hl. apply elem_of_difference. split.
           ++ apply Hin; [by right | done].
           ++ rewrite elem_of_singleton. by intros ->.
    + exists tt, d. split; [done|].
      rewrite (IH D); [|done..|].
      * do 3 f_equal.
        rewrite filter_cons_False; [done|].
        unfold right_length. intros Hn. apply Hn. apply dec_stable.
        congruence.
      * intros w' Hw' Hl. apply Hin; [by right | done].
Qed.

Lemma filter_wrong_length (s : Var) (W : gset string) :
  W ∖ list_to_set (filter (λ w, ¬ right_length s w) (elements W))
  = filter (right_length s) W.
Proof.
  apply set_eq. intros w.
  rewrite elem_of_difference, elem_of_list_to_set, list_elem_of_filter,
    elem_of_elements, elem_of_filter.
  split.
  - intros [Hw Hn]. split; [|done].
    apply dec_stable. intros Hl. apply Hn. done.
  - intros [Hl Hw]. split; [done|]. intros [Hn _]. done.
Qed.

(** The outer loop, on slots that still hold the whole vocabulary. *)
Lemma node_consistency_slots (l : list Var) :
  ∀ d : Domains,
    NoDup l → (∀ s, s ∈ l → d !! s = Some (words cw)) →
    ∃ d', for_each l (λ variable,
            for_each (elements (words cw)) (λ word,
              if decide (var_length variable ≠ String.length word)
              then domain_remove variable word else ret tt)) d
          = Ok (tt, d')
        ∧ ∀ s, d' !! s =
               if decide (s ∈ l)
               then Some (filter (right_length s) (words cw))
               else d !! s.
Proof.
  induction l as [|v l IH]; intros d Hnd Hall; cbn [for_each].
  - exists d. split; [done|]. intros s.
    by rewrite decide_False by apply not_elem_of_nil.
  - apply NoDup_cons in Hnd as [Hv Hnd].
    pose proof (node_consistency_words v (elements (words cw))
                  (words cw) d (NoDup_elements _)) as Hin.
    rewrite filter_wrong_length in Hin.
    specialize (Hin (Hall v ltac:(left))
                    (λ w Hw _, proj1 (elem_of_elements _ _) Hw)).
    destruct (IH (<[v := filter (right_length v) (words cw)]> d) Hnd)
      as (d' & Hrun & Hd').
    { intros s Hs. rewrite lookup_insert_ne by (by intros ->).
      apply Hall. by right. }
    exists d'. split.
    + apply bind_Ok. eauto.
    + intros s. rewrite Hd'. destruct (decide (s = v)) as [->|Hne].
      * rewrite decide_False by done.
        rewrite decide_True by left. by rewrite lookup_insert_eq.
      * destruct (decide (s ∈ l)) as [Hs|Hs].
        -- by rewrite decide_True by (by right).
        -- rewrite decide_False by (by apply not_elem_of_cons).
           by rewrite lookup_insert_ne.
Qed.
End node_consistency.

(** From the domains that [__init__] builds, [enforce_node_consistency]
    returns and leaves each slot with the words of its length. *)
Lemma enforce_node_consistency_lookup (cw : Crossword) :
  ∃ d', enforce_node_consistency cw (init_domains cw) = Ok (tt, d')
      ∧ ∀ s, d' !! s =
             if decide (s ∈ variables cw)
             then Some (filter (right_length s) (words cw))
             else None.
Proof.
  destruct (node_consistency_slots cw (elements (variables cw))
              (init_domains cw) (NoDup_elements _)) as (d' & Hrun & Hd').
  - intros s Hs. unfold init_domains. rewrite lookup_gset_to_gmap_Some.
    split; [|done]. by apply elem_of_elements.
  - exists d'. split; [exact Hrun|].
    intros s. rewrite Hd'. unfold init_domains.
    destruct (decide (s ∈ variables cw)) as [Hs|Hs].
    + by rewrite decide_True by (by apply elem_of_elements).
    + rewrite decide_False by (by rewrite elem_of_elements).
      by apply lookup_gset_to_gmap_None.
Qed.

(** C6. Started on the domains that [__init__] builds,
    [enforce_node_consistency] returns, and leaves every slot [s] of the
    grid with exactly the words of the vocabulary whose length is the
    length of [s]: each word of another length is gone, each word of that
    length is kept, and the domain of [s] is a function of [s] and the
    vocabulary alone. *)
Theorem enforce_node_consistency_spec (cw : Crossword) :
  ∃ d', enforce_node_consistency cw (init_domains cw) = Ok (tt, d')
      ∧ (∀ s, d' !! s =
              if decide (s ∈ variables cw)
              then Some (filter (λ w, String.length w = var_length s)
                                (words cw))
              else None)
      ∧ (∀ s w, (∃ D : gset string, d' !! s = Some D ∧ w ∈ D) ↔
                s ∈ variables cw ∧ w ∈ words cw ∧
                String.length w = var_length s).
Proof.
  destruct (enforce_node_consistency_lookup cw) as (d' & Hrun & Hd').
  exists d'. split_and!; [done..|].
  intros s w. rewrite Hd'. split.
  - intros (D & HD & Hw). case_decide; [|done].
    injection HD as <-. apply elem_of_filter in Hw as [Hlen Hw]. done.
  - intros (Hs & Hw & Hlen). rewrite decide_True by done.
    eexists. split; [done|]. by apply elem_of_filter.
Qed.

(** ** Arc consistency: [revise] *)

Lemma same_letter_eq word a checkword b d :
  same_letter word a checkword b d =
  if decide (indexable word a checkword b)
  then Ok (bool_decide (letters_match word a checkword b), d)
  else Raise IndexError.
Proof.
  unfold same_letter, str_index.
  destruct (decide (indexable word a checkword b)) as [[[c1 H1] [c2 H2]]|Hn].
  - rewrite H1, H2. do 2 f_equal. apply bool_decide_ext.
    unfold letters_match. rewrite H1, H2. split.
    + intros ->. eauto.
    + intros (c & [= <-] & [= <-]). done.
  - destruct (String.get a word) as [c1|] eqn:H1; [|done].
    destruct (String.get b checkword) as [c2|] eqn:H2; [|done].
    destruct Hn. split; [rewrite H1 | rewrite H2]; eauto.
Qed.

Lemma revise_check_eq a b word l :
  ∀ check d,
    revise_check a b word l check d =
    if decide (Forall (λ checkword, indexable word a checkword b) l)
    then Ok (if decide (Exists (λ checkword, letters_match word a checkword b) l)
             then 1 else check, d)
    else Raise IndexError.
Proof.
  induction l as [|c l IH]; intros check d; cbn [revise_check].
  - rewrite decide_True by constructor.
    rewrite decide_False by (by inversion 1). done.
  - unfold bind. rewrite same_letter_eq.
    destruct (decide (indexable word a c b)) as [Hi|Hi].
    + rewrite IH.
      repeat case_decide; repeat case_bool_decide; try done; exfalso;
        rewrite ?Forall_cons, ?Exists_cons in *; tauto.
    + rewrite decide_False; [done|]. rewrite Forall_cons. by intros [? _].
Qed.

(** [revise_check] over the members of a set decides [supported]. *)
Lemma Exists_elements_supported a b Dy word :
  Exists (λ checkword, letters_match word a checkword b) (elements Dy)
  ↔ supported a b Dy word.
Proof.
  unfold supported, set_Exists. rewrite Exists_exists.
  split; intros (c & Hc & Hm); exists c; split; try done;
    by apply elem_of_elements.
Qed.

Lemma Forall_elements_comparable a b Dy word :
  Forall (λ checkword, indexable word a checkword b) (elements Dy)
  ↔ comparable a b Dy word.
Proof.
  unfold comparable, set_Forall. rewrite Forall_forall.
  split; intros H c Hc; apply H; by apply elem_of_elements.
Qed.

(** The outer loop of [revise] on distinct slots: the words of [l] that
    have no support in the domain of [y] leave the domain of [x]. *)
Lemma revise_loop_eq x y a b (Dy : gset string) l :
  x ≠ y →
  ∀ (Dx : gset string) revision (d : Domains),
    NoDup l → (∀ w, w ∈ l → w ∈ Dx) →
    d !! x = Some Dx → d !! y = Some Dy →
    revise_loop x y a b l revision 0 d =
    if decide (Forall (comparable a b Dy) l)
    then Ok (revision || bool_decide (Exists (λ w, ¬ supported a b Dy w) l),
             <[x := Dx ∖ list_to_set (filter (λ w, ¬ supported a b Dy w) l)]> d)
    else Raise IndexError.
Proof.
  intros Hxy. induction l as [|w l IH]; intros Dx revision d Hnd Hin Hx Hy;
    cbn [revise_loop].
  - rewrite decide_True by constructor. unfold ret. do 2 f_equal.
    + rewrite bool_decide_eq_false_2 by (by inversion 1).
      by rewrite orb_false_r.
    + rewrite filter_nil. simpl. rewrite difference_empty_L.
      by rewrite insert_id.
  - apply NoDup_cons in Hnd as [Hw Hnd].
    unfold bind at 1. unfold get_domain at 1. rewrite Hy.
    unfold bind at 1. rewrite revise_check_eq.
    destruct (decide (Forall _ (elements Dy))) as [Hc|Hc].
    2:{ rewrite decide_False; [done|]. rewrite Forall_cons.
        intros [Hc' _]. by apply Hc, Forall_elements_comparable. }
    apply Forall_elements_comparable in Hc.
    destruct (decide (Exists _ (elements Dy))) as [Hs|Hs].
    + apply Exists_elements_supported in Hs.
      rewrite decide_False by done. unfold bind at 1, ret at 1.
      rewrite (IH Dx) by (try done; intros; apply Hin; by right).
      destruct (decide (Forall _ l)) as [Hl|Hl].
      * rewrite decide_True by (by constructor). do 2 f_equal.
        -- f_equal. apply bool_decide_ext. rewrite Exists_cons. tauto.
        -- by rewrite filter_cons_False by tauto.
      * rewrite decide_False; [done|]. rewrite Forall_cons. by intros [_ ?].
    + rewrite Exists_elements_supported in Hs.
      rewrite decide_True by done. unfold bind at 1.
      unfold bind at 1, domain_remove. rewrite Hx.
      rewrite decide_True by (apply Hin; left). unfold ret at 1.
      rewrite (IH (Dx ∖ {[w]})).
      * rewrite insert_insert_eq.
        destruct (decide (Forall _ l)) as [Hl|Hl].
        -- rewrite decide_True by (by constructor). do 2 f_equal.
           ++ cbn [orb].
              rewrite (bool_decide_eq_true_2 (Exists _ (w :: l)))
                by (by apply Exists_cons_hd).
              by rewrite orb_true_r.
           ++ rewrite filter_cons_True by done. f_equal.
              rewrite list_to_set_cons. apply set_eq. intros u.
              rewrite !elem_of_difference, elem_of_union, elem_of_singleton.
              tauto.
        -- rewrite decide_False; [done|]. rewrite Forall_cons. by intros [_ ?].
      * done.
      * intros u Hu. apply elem_of_difference. split; [apply Hin; by right|].
        rewrite elem_of_singleton. by intros ->.
      * by rewrite lookup_insert_eq.
      * by rewrite lookup_insert_ne.
Qed.

Lemma unsupported_removed a b Dy (Dx : gset string) :
  Dx ∖ list_to_set (filter (λ w, ¬ supported a b Dy w) (elements Dx))
  = filter (supported a b Dy) Dx.
Proof.
  apply set_eq. intros w.
  rewrite elem_of_difference, elem_of_list_to_set, list_elem_of_filter,
    elem_of_elements, elem_of_filter.
  split.
  - intros [Hw Hn]. split; [|done]. apply dec_stable. tauto.
  - intros [Hs Hw]. split; [done|]. tauto.
Qed.

(** [revise] on distinct slots whose domains exist. *)
Lemma revise_eq cw x y a b (Dx Dy : gset string) (d : Domains) :
  x ≠ y → overlaps cw x y = Some (a, b) →
  d !! x = Some Dx → d !! y = Some Dy →
  revise cw x y d =
  if decide (set_Forall (comparable a b Dy) Dx)
  then Ok (bool_decide (filter (supported a b Dy) Dx ≠ Dx),
           <[x := filter (supported a b Dy) Dx]> d)
  else Raise IndexError.
Proof.
  intros Hxy Ho Hx Hy. unfold revise, get_overlap. rewrite Ho.
  unfold bind at 1, ret at 1. unfold bind at 1, get_domain at 1. rewrite Hx.
  rewrite (revise_loop_eq x y a b Dy (elements Dx) Hxy Dx false d);
    [|apply NoDup_elements|by intros w ?%elem_of_elements|done..].
  rewrite unsupported_removed.
  destruct (decide (Forall _ (elements Dx))) as [Hc|Hc].
  - rewrite decide_True.
    2:{ intros w Hw. rewrite Forall_forall in Hc. by apply Hc, elem_of_elements. }
    do 2 f_equal. cbn [orb]. apply bool_decide_ext. split.
    + intros (w & Hw & Hn)%Exists_exists Heq. apply Hn.
      apply elem_of_elements in Hw. rewrite <- Heq in Hw.
      by apply elem_of_filter in Hw as [? _].
    + intros Hne. apply dec_stable. intros Hall. apply Hne.
      apply set_eq. intros w. rewrite elem_of_filter. split; [tauto|].
      intros Hw. split; [|done]. apply dec_stable. intros Hn.
      apply Hall, Exists_exists. exists w.
      split; [by apply elem_of_elements | done].
  - rewrite decide_False; [done|]. intros Hall. apply Hc.
    apply Forall_forall. intros w Hw. by apply Hall, elem_of_elements.
Qed.

Lemma revise_empty cw x y a b (d : Domains) :
  overlaps cw x y = Some (a, b) → d !! x = Some ∅ →
  revise cw x y d = Ok (false, d).
Proof.
  intros Ho Hx. unfold revise, get_overlap. rewrite Ho.
  unfold bind at 1, ret at 1. unfold bind at 1, get_domain at 1. rewrite Hx.
  by rewrite elements_empty.
Qed.

(** What a returning [revise] has done, on distinct slots. *)
Lemma revise_inv cw x y (d d' : Domains) r :
  x ≠ y → revise cw x y d = Ok (r, d') →
  ∃ a b (Dx : gset string),
    overlaps cw x y = Some (a, b) ∧ d !! x = Some Dx ∧
    ((Dx = ∅ ∧ r = false ∧ d' = d) ∨
     (∃ Dy : gset string,
        d !! y = Some Dy ∧ set_Forall (comparable a b Dy) Dx ∧
        r = bool_decide (filter (supported a b Dy) Dx ≠ Dx) ∧
        d' = <[x := filter (supported a b Dy) Dx]> d)).
Proof.
  intros Hxy Hrun.
  destruct (overlaps cw x y) as [[a b]|] eqn:Ho.
  2:{ unfold revise, get_overlap in Hrun. by rewrite Ho in Hrun. }
  destruct (d !! x) as [Dx|] eqn:Hx.
  2:{ unfold revise, get_overlap in Hrun. rewrite Ho in Hrun.
      unfold bind at 1, ret at 1 in Hrun.
      unfold bind at 1, get_domain at 1 in Hrun. by rewrite Hx in Hrun. }
  exists a, b, Dx. split_and!; [done..|].
  destruct (d !! y) as [Dy|] eqn:Hy.
  - right. exists Dy. rewrite (revise_eq cw x y a b Dx Dy) in Hrun by done.
    case_decide; [|done]. by injection Hrun as <- <-.
  - left. unfold revise, get_overlap in Hrun. rewrite Ho in Hrun.
    unfold bind at 1, ret at 1 in Hrun.
    unfold bind at 1, get_domain at 1 in Hrun. rewrite Hx in Hrun.
    destruct (elements Dx) as [|w l] eqn:Hel.
    + apply elements_empty_inv in Hel. apply leibniz_equiv in Hel.
      cbn in Hrun. by injection Hrun as <- <-.
    + cbn [revise_loop] in Hrun. unfold bind at 1, get_domain at 1 in Hrun.
      by rewrite Hy in Hrun.
Qed.

(** ** Arc consistency: [ac3] *)

Lemma elem_of_initial_queue cw arcs x y :
  (x, y) ∈ initial_queue cw arcs ↔ x ∈ variables cw ∧ y ∈ neighbors cw x.
Proof.
  unfold initial_queue.
  assert (Hinner : ∀ x' l (q : gset Arc),
            (x, y) ∈ foldl (λ queue y', {[(x', y')]} ∪ queue) q l
            ↔ (x, y) ∈ q ∨ (x = x' ∧ y ∈ l)).
  { intros x' l. induction l as [|z l IH]; intros q; cbn [foldl].
    - rewrite elem_of_nil. tauto.
    - rewrite IH, elem_of_union, elem_of_singleton, elem_of_cons.
      split; [intros [[[= -> ->]|?]|[-> ?]] | intros [?|[-> [->|?]]]]; auto. }
  assert (Houter : ∀ l (q : gset Arc),
            (x, y) ∈ foldl (λ queue x',
                   let neighbor := neighbors cw x' in
                   foldl (λ queue y', {[(x', y')]} ∪ queue) queue
                         (elements neighbor)) q l
            ↔ (x, y) ∈ q ∨ (x ∈ l ∧ y ∈ neighbors cw x)).
  { induction l as [|z l IH]; intros q; cbn [foldl].
    - rewrite elem_of_nil. tauto.
    - rewrite IH, Hinner, elem_of_elements, elem_of_cons.
      split; [intros [[?|[-> ?]]|[? ?]] | intros [?|[[->|?] ?]]]; auto. }
  rewrite Houter, elem_of_elements, elem_of_empty. tauto.
Qed.

(** [ac3] reads [pick] at one place: on the members of the initial
    queue. *)
Lemma ac3_run_pick cw arcs pick1 pick2 d :
  (let l := elements (initial_queue cw arcs) in
   pick1 l `mod` length l = pick2 l `mod` length l) →
  ac3_run cw arcs pick1 d = ac3_run cw arcs pick2 d.
Proof.
  intros Hpick. unfold ac3_run. case_decide; [|done].
  unfold bind at 1 3, set_pop. cbn zeta in Hpick. by rewrite Hpick.
Qed.

(** The first iteration of the loop of [ac3]: the popped arc joins a
    slot with one of its neighbours. *)
Lemma set_pop_inv (pick : list Arc → nat) (queue queue' : gset Arc)
    (arc : Arc) (d d' : Domains) :
  set_pop pick queue d = Ok ((arc, queue'), d') →
  arc ∈ queue ∧ queue' = queue ∖ {[arc]} ∧ d' = d.
Proof.
  unfold set_pop.
  destruct (elements queue !! _) as [arc'|] eqn:Hl; [|done].
  intros [= <- <- <-]. split_and!; try done.
  apply elem_of_elements. by eapply list_elem_of_lookup_2.
Qed.

Lemma shrinks_refl d : shrinks d d.
Proof.
  intros s. destruct (d !! s); constructor. done.
Qed.

Lemma shrinks_trans d1 d2 d3 : shrinks d1 d2 → shrinks d2 d3 → shrinks d1 d3.
Proof.
  intros H12 H23 s. specialize (H12 s). specialize (H23 s).
  destruct H23 as [D3 D2 H32|]; [|done].
  inversion H12 as [D2' D1 H21|]; subst. constructor.
  by transitivity D2.
Qed.

Lemma shrinks_insert (d : Domains) x (D D' : gset string) :
  d !! x = Some D → D' ⊆ D → shrinks d (<[x := D']> d).
Proof.
  intros Hx Hsub s. destruct (decide (s = x)) as [->|Hne].
  - rewrite lookup_insert_eq, Hx. by constructor.
  - rewrite lookup_insert_ne by done. apply shrinks_refl.
Qed.

Lemma revise_check_state a b word l check check' (d d' : Domains) :
  revise_check a b word l check d = Ok (check', d') → d' = d.
Proof.
  rewrite revise_check_eq. case_decide; [|done]. by intros [= _ <-].
Qed.

(** The loop of [revise] can only remove words, whatever the slots. *)
Lemma revise_loop_shrinks x y a b l :
  ∀ revision check r (d d' : Domains),
    revise_loop x y a b l revision check d = Ok (r, d') → shrinks d d'.
Proof.
  induction l as [|w l IH]; intros revision check r d d' Hrun;
    cbn [revise_loop] in Hrun.
  - apply ret_Ok in Hrun as [_ ->]. apply shrinks_refl.
  - apply bind_Ok in Hrun as (Dy & d1 & [Hy ->]%get_domain_Ok & Hrun).
    apply bind_Ok in Hrun as (check1 & d2 & ->%revise_check_state & Hrun).
    apply bind_Ok in Hrun as (revision1 & d3 & Hrem & Hrun).
    eapply shrinks_trans; [|by eapply IH].
    case_decide.
    + apply bind_Ok in Hrem as ([] & d4 & Hrem & [_ ->]%ret_Ok).
      apply domain_remove_Ok in Hrem as (D & Hx & _ & ->).
      eapply shrinks_insert; [done|]. apply subseteq_difference_l. done.
    + apply ret_Ok in Hrem as [_ ->]. apply shrinks_refl.
Qed.

Lemma revise_shrinks cw x y r (d d' : Domains) :
  revise cw x y d = Ok (r, d') → shrinks d d'.
Proof.
  unfold revise, get_overlap. intros Hrun.
  destruct (overlaps cw x y) as [[a b]|]; [|done].
  apply bind_Ok in Hrun as (ab & d1 & [<- ->]%ret_Ok & Hrun).
  apply bind_Ok in Hrun as (Dx & d2 & [_ ->]%get_domain_Ok & Hrun).
  by eapply revise_loop_shrinks.
Qed.

Lemma ac3_run_shrinks cw arcs pick r (d d' : Domains) :
  ac3_run cw arcs pick d = Ok (r, d') → shrinks d d'.
Proof.
  unfold ac3_run. case_decide.
  - intros Hrun.
    apply bind_Ok in Hrun as ([[x y] q] & d1 & (_ & _ & ->)%set_pop_inv & Hrun).
    apply bind_Ok in Hrun as (revised & d2 & Hrev%revise_shrinks & Hrun).
    destruct revised.
    + apply bind_Ok in Hrun as (Dx & d3 & [_ ->]%get_domain_Ok & Hrun).
      case_decide; by apply ret_Ok in Hrun as [_ ->].
    + by apply ret_Ok in Hrun as [_ ->].
  - intros [_ ->]%ret_Ok. apply shrinks_refl.
Qed.

Lemma ac3_Ok cw arcs pick r (d d' : Domains) :
  ac3 cw arcs pick d = Ok (r, d') ↔
  ∃ queue, ac3_run cw arcs pick d = Ok ((r, queue), d').
Proof.
  unfold ac3. rewrite bind_Ok. split.
  - intros ([r' q] & d1 & Hrun & [<- ->]%ret_Ok). eauto.
  - intros (q & Hrun). exists (r, q), d'. done.
Qed.

(** C8. Whatever [ac3] is called with, when it returns the dict of
    domains has the keys it had and every domain is a subset of what it
    was, so no domain has grown: words are removed, never added. *)
Theorem ac3_only_removes cw arcs pick r (d d' : Domains) :
  ac3 cw arcs pick d = Ok (r, d') →
  dom d' = dom d ∧
  ∀ s (D D' : gset string),
    d !! s = Some D → d' !! s = Some D' → D' ⊆ D ∧ (size D' ≤ size D)%nat.
Proof.
  intros (q & Hrun%ac3_run_shrinks)%ac3_Ok. split.
  - apply set_eq. intros s. rewrite !elem_of_dom. specialize (Hrun s).
    destruct Hrun as [? ? _|]; split; intros [? [=]]; eauto.
  - intros s D D' Hs Hs'. specialize (Hrun s). rewrite Hs, Hs' in Hrun.
    inversion Hrun; subst. split; [done|]. by apply subseteq_size.
Qed.

Lemma filter_supported_idemp a b Dy (Dx : gset string) :
  filter (supported a b Dy) (filter (supported a b Dy) Dx)
  = filter (supported a b Dy) Dx.
Proof.
  apply set_eq. intros w. rewrite !elem_of_filter. tauto.
Qed.

(** C2. On a well-formed crossword, a call of [ac3] without initial
    arcs that returns leaves domains on which a second such call returns
    as well and changes nothing: no word is removed the second time. *)
Theorem ac3_twice cw pick r (d d1 : Domains) :
  wf_crossword cw →
  ac3 cw None pick d = Ok (r, d1) →
  ∃ r', ac3 cw None pick d1 = Ok (r', d1).
Proof.
  intros Hwf (q & Hrun)%ac3_Ok.
  assert (∃ q', ac3_run cw None pick d1 = Ok (q', d1)) as [[r' q'] Hrun'];
    [|exists r'; apply ac3_Ok; eauto].
  unfold ac3_run in *. case_decide as Hsize.
  2:{ apply ret_Ok in Hrun as [_ ->]. eexists. reflexivity. }
  apply bind_Ok in Hrun as ([[x y] q1] & d2 & Hpop & Hrun).
  pose proof Hpop as (Harc & -> & ->)%set_pop_inv.
  apply elem_of_initial_queue in Harc as [_ Hy].
  assert (x ≠ y) as Hxy.
  { intros ->. by eapply wf_neighbor_ne. }
  assert (set_pop pick (initial_queue cw None) d1 =
          Ok ((x, y, initial_queue cw None ∖ {[(x, y)]}), d1)) as Hpop'.
  { unfold set_pop in *.
    destruct (elements _ !! _) as [arc|]; [|done]. by injection Hpop as ->. }
  unfold bind at 1. rewrite Hpop'. clear Hpop Hpop'.
  apply bind_Ok in Hrun as (revised & d2 & Hrev & Hrun).
  assert (d1 = d2) as ->.
  { destruct revised.
    - apply bind_Ok in Hrun as (Dx & d3 & [_ ->]%get_domain_Ok & Hrun).
      case_decide; by apply ret_Ok in Hrun as [_ ->].
    - by apply ret_Ok in Hrun as [_ ->]. }
  clear Hrun.
  assert (revise cw x y d2 = Ok (false, d2)) as Hrev'.
  { apply (revise_inv _ _ _ _ _ _ Hxy) in Hrev
      as (a & b & Dx & Ho & Hx & [(-> & -> & ->)|(Dy & Hy' & Hc & -> & ->)]).
    - by eapply revise_empty.
    - rewrite (revise_eq cw x y a b (filter (supported a b Dy) Dx) Dy);
        [|done|done|by rewrite lookup_insert_eq|by rewrite lookup_insert_ne].
      rewrite decide_True.
      2:{ intros w [_ Hw]%elem_of_filter. by apply Hc. }
      rewrite filter_supported_idemp, insert_insert_eq.
      by rewrite bool_decide_eq_false_2 by (by intros []). }
  unfold bind at 1. rewrite Hrev'. eexists. reflexivity.
Qed.

(** C10. When no slot of the grid has a neighbour, [ac3] called without
    initial arcs returns [None], neither [True] nor [False], with the
    domains as they were: the queue is empty, the loop is not entered and
    the function ends without a [return]. *)
Theorem ac3_without_arcs_returns_None cw pick (d : Domains) :
  (∀ x, x ∈ variables cw → neighbors cw x = ∅) →
  ac3 cw None pick d = Ok (None, d).
Proof.
  intros Hnone.
  assert (initial_queue cw None = ∅) as Hq.
  { apply set_eq. intros [x y].
    rewrite elem_of_initial_queue, elem_of_empty. split; [|done].
    intros [Hx Hy]. rewrite (Hnone x Hx) in Hy. by apply elem_of_empty in Hy. }
  unfold ac3, ac3_run. rewrite Hq.
  rewrite decide_False by (by rewrite size_empty; intros []).
  reflexivity.
Qed.

Lemma cw0_wf : wf_crossword cw0.
Proof.
  split; intros x y; cbn [neighbors cw0 variables];
    (destruct (decide (x = X0)) as [->|?];
     [|destruct (decide (x = Y0)) as [->|?]]);
    rewrite ?elem_of_singleton, ?elem_of_empty; try done; intros ->.
  - apply elem_of_union_r, elem_of_singleton. done.
  - apply elem_of_union_l, elem_of_singleton. done.
  - done.
  - done.
  - exists 0, 0. split; [reflexivity | cbn; lia].
  - exists 0, 0. split; [reflexivity | cbn; lia].
Qed.

Lemma cw0_node_consistent :
  enforce_node_consistency cw0 (init_domains cw0) = Ok (tt, d0).
Proof. compute_done. Qed.

Lemma ac3_twice_witness :
  wf_crossword cw0 ∧
  ac3 cw0 None (λ _, 0) d0
    = Ok (Some true, {[ X0 := {["AB"]}; Y0 := {["AXX"; "EFF"]} ]}) ∧
  ∃ r', ac3 cw0 None (λ _, 0) {[ X0 := {["AB"]}; Y0 := {["AXX"; "EFF"]} ]}
        = Ok (r', {[ X0 := {["AB"]}; Y0 := {["AXX"; "EFF"]} ]}).
Proof.
  split; [exact cw0_wf|]. split; [compute_done|].
  apply (ac3_twice cw0 (λ _, 0) (Some true) d0 _ cw0_wf).
  compute_done.
Defined.

Lemma ac3_without_arcs_returns_None_witness :
  (∀ x, x ∈ variables cw1 → neighbors cw1 x = ∅) ∧
  ac3 cw1 None (λ _, 0) (init_domains cw1) = Ok (None, init_domains cw1).
Proof.
  split; [reflexivity|].
  apply (ac3_without_arcs_returns_None cw1 (λ _, 0) (init_domains cw1)).
  reflexivity.
Defined.

Lemma ac3_only_removes_witness :
  ac3 cw0 None (λ _, 0) d0
    = Ok (Some true, {[ X0 := {["AB"]}; Y0 := {["AXX"; "EFF"]} ]}) ∧
  dom ({[ X0 := {["AB"]}; Y0 := {["AXX"; "EFF"]} ]} : Domains) = dom d0 ∧
  ∀ s (D D' : gset string),
    d0 !! s = Some D →
    ({[ X0 := {["AB"]}; Y0 := {["AXX"; "EFF"]} ]} : Domains) !! s = Some D' →
    D' ⊆ D ∧ (size D' ≤ size D)%nat.
Proof.
  split; [compute_done|].
  apply (ac3_only_removes cw0 None (λ _, 0) (Some true) d0).
  compute_done.
Defined.

(** C1. On the crossing grid [cw0], node-consistent, [ac3] returns [True]
    whichever arc [pop] yields, with an arc still in its queue and with
    domains that are not arc consistent (I2 fails): the claim that a
    returned [True] means a drained queue and I2 does not hold of the
    code. *)
Theorem ac3_returns_True_before_queue_is_drained :
  enforce_node_consistency cw0 (init_domains cw0) = Ok (tt, d0) ∧
  ∀ pick, ∃ queue d',
    ac3_run cw0 None pick d0 = Ok ((Some true, queue), d') ∧
    queue ≠ ∅ ∧ ¬ arc_consistent cw0 d'.
Proof.
  split; [exact cw0_node_consistent|]. intros pick.
  set (l := elements (initial_queue cw0 None)).
  assert (length l = 2) as Hlen by compute_done.
  assert (pick l `mod` length l < 2)%nat as Hlt.
  { rewrite Hlen. apply Nat.mod_upper_bound. lia. }
  destruct (pick l `mod` length l) as [|[|n]] eqn:Hpick; [| |lia].
  - rewrite (ac3_run_pick cw0 None pick (λ _, 0))
      by (cbn zeta; fold l; rewrite Hpick, Hlen; reflexivity).
    exists {[ (Y0, X0) ]}, {[ X0 := {["AB"]}; Y0 := {["AXX"; "EFF"]} ]}.
    split; [compute_done|]. split; [compute_done|].
    intros Hac.
    assert (supported 0 0 {["AB"]} "EFF") as Hs
      by (apply (Hac Y0 X0 0 0 {["AXX"; "EFF"]} {["AB"]}); compute_done).
    revert Hs. compute_done.
  - rewrite (ac3_run_pick cw0 None pick (λ _, 1))
      by (cbn zeta; fold l; rewrite Hpick, Hlen; reflexivity).
    exists {[ (X0, Y0) ]}, {[ X0 := {["AB"; "CD"]}; Y0 := {["AXX"]} ]}.
    split; [compute_done|]. split; [compute_done|].
    intros Hac.
    assert (supported 0 0 {["AXX"]} "CD") as Hs
      by (apply (Hac X0 Y0 0 0 {["AB"; "CD"]} {["AXX"]}); compute_done).
    revert Hs. compute_done.
Qed.

(** C4. On [cw0], a call of [ac3] that is given the single arc
    [(X0, Y0)] starts from the queue of both arcs of the grid, and, when
    [pop] yields the other arc, revises the domain of [Y0]: the queue
    does not start with the supplied arcs. *)
Theorem ac3_ignores_supplied_arcs :
  initial_queue cw0 (Some [(X0, Y0)]) = {[ (X0, Y0); (Y0, X0) ]} ∧
  ((Y0, X0) ∉ (list_to_set [(X0, Y0)] : gset Arc)) ∧
  ∃ pick d', ac3 cw0 (Some [(X0, Y0)]) pick d0 = Ok (Some true, d') ∧
             d0 !! Y0 = Some {["AXX"; "EFF"]} ∧
             d' !! Y0 = Some {["AXX"]}.
Proof.
  split; [compute_done|]. split; [compute_done|].
  exists (λ _, 1). exists ({[ X0 := {["AB"; "CD"]}; Y0 := {["AXX"]} ]}).
  split_and!; compute_done.
Qed.

(** ** The consistency check *)

Lemma string_get_is_Some (s : string) (n : nat) :
  is_Some (String.get n s) ↔ (n < String.length s)%nat.
Proof.
  revert n. induction s as [|c s IH]; intros n; cbn.
  - split; [intros [? [=]] | lia].
  - destruct n as [|n]; [split; [lia | eauto]|].
    rewrite IH. lia.
Qed.

Lemma same_word_twice_false (assignment : Assignment) :
  same_word_twice assignment = false ↔ words_distinct assignment.
Proof.
  unfold same_word_twice, words_distinct. split.
  - intros Hno x y wx wy Hx Hy Hne ->.
    apply not_true_iff_false in Hno. apply Hno.
    apply existsb_exists. exists (x, wy).
    split; [by apply list_elem_of_In, elem_of_map_to_list|].
    apply existsb_exists. exists (y, wy).
    split; [by apply list_elem_of_In, elem_of_map_to_list|].
    cbn. by rewrite !bool_decide_eq_true_2.
  - intros Hd. apply not_true_iff_false.
    intros ([x wx] & Hx & ([y wy] & Hy & Heq)%existsb_exists)%existsb_exists.
    apply list_elem_of_In, elem_of_map_to_list in Hx, Hy. cbn in Heq.
    apply andb_true_iff in Heq as [Hne%bool_decide_eq_true Heq%bool_decide_eq_true].
    exact (Hd x y wx wy Hx Hy Hne Heq).
Qed.

Lemma consistent_neighbors_spec cw (assignment : Assignment) x wx l
    (d : Domains) :
  Forall (evaluable_at cw assignment x wx) l →
  ∃ ok : bool,
    consistent_neighbors cw assignment x wx l d = Ok (ok, d) ∧
    (ok = true ↔ Forall (agree_at cw assignment x wx) l).
Proof.
  induction l as [|var l IH]; intros Hev; cbn [consistent_neighbors].
  - exists true. split; [done|]. split; [constructor | done].
  - apply Forall_cons in Hev as [(a & b & Ho & Hidx) Hev].
    destruct (IH Hev) as (ok & Hrun & Hok).
    unfold get_overlap. rewrite Ho. unfold bind at 1, ret at 1.
    destruct (assignment !! var) as [wvar|] eqn:Hvar.
    + unfold bind. rewrite same_letter_eq.
      rewrite decide_True by (by apply Hidx).
      case_bool_decide as Hm.
      * exists ok. split; [done|]. rewrite Hok, Forall_cons.
        split; [|tauto]. intros Hl. split; [|done].
        intros wvar' a' b' Hvar' Ho'. congruence.
      * exists false. split; [done|]. split; [done|].
        intros [Hag _]%Forall_cons. destruct Hm. by apply Hag.
    + exists ok. split; [done|]. rewrite Hok, Forall_cons.
      split; [|tauto]. intros Hl. split; [|done].
      intros wvar' a' b' Hvar'. congruence.
Qed.

Lemma consistent_loop_spec cw (assignment : Assignment) l (d : Domains) :
  Forall (λ p, Forall (evaluable_at cw assignment p.1 p.2)
                      (elements (neighbors cw p.1))) l →
  ∃ ok : bool,
    consistent_loop cw assignment l d = Ok (ok, d) ∧
    (ok = true ↔
     Forall (λ p, Forall (agree_at cw assignment p.1 p.2)
                         (elements (neighbors cw p.1))) l).
Proof.
  induction l as [|[x wx] l IH]; intros Hev; cbn [consistent_loop].
  - exists true. split; [done|]. split; [constructor | done].
  - apply Forall_cons in Hev as [Hx Hev]. cbn [fst snd] in Hx.
    destruct (IH Hev) as (ok & Hrun & Hok).
    destruct (consistent_neighbors_spec cw assignment x wx _ d Hx)
      as (okx & Hrunx & Hokx).
    unfold bind. rewrite Hrunx. destruct okx.
    + exists ok. split; [done|]. rewrite Hok, Forall_cons. cbn [fst snd].
      tauto.
    + exists false. split; [done|]. split; [done|].
      rewrite Forall_cons. cbn [fst snd]. intros [Hag _].
      apply Hokx in Hag. done.
Qed.

Lemma overlaps_agree_Forall cw (assignment : Assignment) :
  Forall (λ p, Forall (agree_at cw assignment p.1 p.2)
                      (elements (neighbors cw p.1)))
         (map_to_list assignment)
  ↔ overlaps_agree cw assignment.
Proof.
  unfold overlaps_agree. rewrite Forall_forall. split.
  - intros Hall x wx var Hx Hvar.
    specialize (Hall (x, wx) ltac:(by apply elem_of_map_to_list)).
    rewrite Forall_forall in Hall. by apply Hall, elem_of_elements.
  - intros Hag [x wx] Hx%elem_of_map_to_list. apply Forall_forall.
    intros var Hvar%elem_of_elements. by apply Hag.
Qed.

(** On a well-formed crossword, every check that [consistent] makes on
    an assignment of fitting words can be evaluated. *)
Lemma fits_evaluable cw (assignment : Assignment) :
  wf_crossword cw → fits assignment →
  Forall (λ p, Forall (evaluable_at cw assignment p.1 p.2)
                      (elements (neighbors cw p.1)))
         (map_to_list assignment).
Proof.
  intros Hwf Hfit. apply Forall_forall.
  intros [x wx] Hx%elem_of_map_to_list. apply Forall_forall.
  intros var Hvar%elem_of_elements. cbn [fst snd] in *.
  destruct (wf_neighbor_overlap cw Hwf x var Hvar) as (a & b & Ho & Ha & Hb).
  exists a, b. split; [done|]. intros wvar Hwvar.
  split; apply string_get_is_Some.
  - by rewrite (Hfit x wx Hx).
  - by rewrite (Hfit var wvar Hwvar).
Qed.

(** On a well-formed crossword and fitting words, [consistent] returns
    the truth value of invariant I3 and keeps the domains. *)
Lemma consistent_decides cw (assignment : Assignment) (d : Domains) :
  wf_crossword cw → fits assignment →
  ∃ ok : bool,
    consistent cw assignment d = Ok (ok, d) ∧
    (ok = true ↔ words_distinct assignment ∧ overlaps_agree cw assignment).
Proof.
  intros Hwf Hfit. unfold consistent.
  destruct (same_word_twice assignment) eqn:Htwice.
  - exists false. split; [done|]. split; [done|].
    intros [Hd%same_word_twice_false _]. congruence.
  - apply same_word_twice_false in Htwice.
    destruct (consistent_loop_spec cw assignment _ d
                (fits_evaluable cw assignment Hwf Hfit))
      as (ok & Hrun & Hok).
    exists ok. split; [done|].
    rewrite Hok, overlaps_agree_Forall. tauto.
Qed.

(** C7. On a well-formed crossword and an assignment of words that fill
    their slots, [consistent] returns a Boolean and leaves the domains as
    they are; it returns [False] when two distinct slots hold the same
    word, [False] when an assigned slot and an assigned neighbour differ
    on the letter of their shared cell, and [True] otherwise. *)
Theorem consistent_spec cw (assignment : Assignment) (d : Domains) :
  wf_crossword cw → fits assignment →
  ∃ ok : bool,
    consistent cw assignment d = Ok (ok, d) ∧
    (¬ words_distinct assignment → ok = false) ∧
    (¬ overlaps_agree cw assignment → ok = false) ∧
    (words_distinct assignment → overlaps_agree cw assignment → ok = true).
Proof.
  intros Hwf Hfit.
  destruct (consistent_decides cw assignment d Hwf Hfit) as (ok & Hrun & Hok).
  exists ok. split_and!; [done|..]; destruct ok; tauto.
Qed.

(** ** Methods that only read the domains *)

Lemma preserves_ret {A} (a : A) : preserves (ret a).
Proof. intros d d' a' [_ ->]%ret_Ok. done. Qed.

Lemma preserves_raise {A} e : preserves (@raise A e).
Proof. intros d d' a. done. Qed.

Lemma preserves_bind {A B} (m : M A) (k : A → M B) :
  preserves m → (∀ a, preserves (k a)) → preserves (bind m k).
Proof.
  intros Hm Hk d d' b (a & d1 & ->%Hm & ->%Hk)%bind_Ok. done.
Qed.

Lemma preserves_get_domain x : preserves (get_domain x).
Proof. intros d d' D [_ ->]%get_domain_Ok. done. Qed.

Lemma preserves_get_overlap cw x y : preserves (get_overlap cw x y).
Proof.
  unfold get_overlap. destruct (overlaps cw x y);
    [apply preserves_ret | apply preserves_raise].
Qed.

Lemma preserves_same_letter word a checkword b :
  preserves (same_letter word a checkword b).
Proof.
  intros d d' r. rewrite same_letter_eq. case_decide; [|done].
  by intros [= _ <-].
Qed.

Lemma preserves_dict_del var (assignment : Assignment) :
  preserves (dict_del var assignment).
Proof.
  unfold dict_del. destruct (assignment !! var);
    [apply preserves_ret | apply preserves_raise].
Qed.

Create HintDb frame.
#[local] Hint Resolve preserves_ret preserves_raise preserves_get_domain
  preserves_get_overlap preserves_same_letter preserves_dict_del : frame.

Ltac frame_step :=
  first
    [ match goal with
      | |- preserves (bind _ _) => apply preserves_bind; [|intros ?]
      | |- preserves (match ?x with _ => _ end) => destruct x
      end
    | solve [auto with frame] ].
Ltac frame := repeat frame_step.

Lemma preserves_consistent_neighbors cw (assignment : Assignment) x wx l :
  preserves (consistent_neighbors cw assignment x wx l).
Proof. induction l; cbn [consistent_neighbors]; frame. Qed.

Lemma preserves_consistent_loop cw (assignment : Assignment) l :
  preserves (consistent_loop cw assignment l).
Proof.
  induction l as [|[x wx] l IH]; cbn [consistent_loop]; frame.
  apply preserves_consistent_neighbors.
Qed.

Lemma preserves_consistent cw (assignment : Assignment) :
  preserves (consistent cw assignment).
Proof.
  unfold consistent. frame. apply preserves_consistent_loop.
Qed.

Lemma preserves_list_comp {A B} (f : A → M B) l :
  (∀ x, preserves (f x)) → preserves (list_comp f l).
Proof. intros Hf. induction l; cbn [list_comp]; frame. Qed.

Lemma preserves_count_rule_out (assignment : Assignment) val l count :
  preserves (count_rule_out assignment val l count).
Proof.
  revert count. induction l as [|n l IH]; intros count;
    cbn [count_rule_out]; frame; apply IH.
Qed.

Lemma preserves_order_domain_values cw var (assignment : Assignment) :
  preserves (order_domain_values cw var assignment).
Proof.
  unfold order_domain_values. frame.
  apply preserves_list_comp. intros val. apply preserves_count_rule_out.
Qed.

Lemma preserves_select_unassigned_variable cw (assignment : Assignment) :
  preserves (select_unassigned_variable cw assignment).
Proof.
  unfold select_unassigned_variable. frame.
  apply preserves_list_comp. intros val. frame.
Qed.

#[local] Hint Resolve preserves_consistent preserves_order_domain_values
  preserves_select_unassigned_variable : frame.

Lemma preserves_backtrack_loop rec cw var values :
  (∀ assignment, preserves (rec assignment)) →
  ∀ assignment : Assignment,
    preserves (backtrack_loop rec cw var values assignment).
Proof.
  intros Hrec. induction values as [|value values IH]; intros assignment;
    cbn [backtrack_loop]; frame; try apply Hrec; try apply IH.
Qed.

Lemma preserves_backtrack fuel cw :
  ∀ assignment : Assignment, preserves (backtrack fuel cw assignment).
Proof.
  induction fuel as [|fuel IH]; intros assignment; cbn [backtrack]; frame.
  by apply preserves_backtrack_loop.
Qed.

(** ** Sorting *)

Lemma insert_sorted_Permutation {A} (lt : A → A → bool) x l :
  insert_sorted lt x l ≡ₚ x :: l.
Proof.
  induction l as [|y l IH]; cbn [insert_sorted]; [done|].
  destruct (lt y x); [|done]. rewrite IH. apply Permutation_swap.
Qed.

Lemma sorted_Permutation {A} (lt : A → A → bool) l : sorted lt l ≡ₚ l.
Proof.
  induction l as [|x l IH]; [done|].
  unfold sorted in *. cbn [foldr]. rewrite insert_sorted_Permutation.
  by rewrite IH.
Qed.

Section sorted_head.
Context {A} (lt : A → A → bool).
Hypothesis lt_asym : ∀ x y, lt x y = true → lt y x = false.
Hypothesis lt_neg_trans :
  ∀ x y z, lt x z = true → lt x y = true ∨ lt y z = true.

Lemma lt_irrefl x : lt x x = false.
Proof.
  destruct (lt x x) eqn:H; [|done]. by rewrite (lt_asym x x H) in H.
Qed.

Lemma insert_sorted_head x l h t :
  (∀ h0 t0, l = h0 :: t0 → ∀ u, u ∈ l → lt u h0 = false) →
  insert_sorted lt x l = h :: t →
  ∀ u, u ∈ x :: l → lt u h = false.
Proof.
  destruct l as [|y l]; cbn [insert_sorted].
  - intros _ [= <- <-] u ->%list_elem_of_singleton. apply lt_irrefl.
  - intros Hmin. specialize (Hmin y l eq_refl).
    destruct (lt y x) eqn:Hyx.
    + intros [= <- <-] u [->|Hu]%elem_of_cons; [by apply lt_asym|].
      by apply Hmin.
    + intros [= <- <-] u [->|Hu]%elem_of_cons; [apply lt_irrefl|].
      destruct (lt u x) eqn:Hux; [|done].
      destruct (lt_neg_trans u y x Hux) as [Huy|Hyx']; [|congruence].
      rewrite (Hmin u Hu) in Huy. done.
Qed.

(** The head of a sorted list has nothing of the list strictly before
    it. *)
Lemma sorted_head l h t :
  sorted lt l = h :: t → ∀ u, u ∈ l → lt u h = false.
Proof.
  revert h t. induction l as [|x l IH]; intros h t; [done|].
  unfold sorted in *. cbn [foldr]. intros Hins u Hu.
  eapply (insert_sorted_head x (foldr (insert_sorted lt) [] l)); [|done|].
  - intros h0 t0 Heq u0 Hu0. eapply IH; [done|].
    by rewrite <- (sorted_Permutation lt l).
  - apply elem_of_cons in Hu as [->|Hu]; [left|right].
    by rewrite (sorted_Permutation lt l).
Qed.
End sorted_head.

(** ** The heuristics *)

Lemma list_comp_fmap {A B} (f : A → M B) (g : A → B) l (d : Domains) :
  (∀ x, x ∈ l → f x d = Ok (g x, d)) →
  list_comp f l d = Ok (g <$> l, d).
Proof.
  induction l as [|x l IH]; intros Hf; cbn [list_comp]; [done|].
  unfold bind. rewrite (Hf x) by left.
  rewrite IH by (intros; apply Hf; by right). done.
Qed.

Lemma list_comp_returns {A B} (f : A → M B) l (d : Domains) :
  (∀ x, x ∈ l → ∃ y, f x d = Ok (y, d)) →
  ∃ ys, list_comp f l d = Ok (ys, d) ∧ length ys = length l.
Proof.
  induction l as [|x l IH]; intros Hf; cbn [list_comp].
  - by exists [].
  - destruct (Hf x ltac:(left)) as [y Hy].
    destruct IH as (ys & Hys & Hlen); [intros; apply Hf; by right|].
    exists (y :: ys). unfold bind. rewrite Hy, Hys. cbn. by rewrite Hlen.
Qed.

Lemma count_rule_out_returns (assignment : Assignment) val l (d : Domains) :
  (∀ n, n ∈ l → is_Some (d !! n)) →
  ∀ count, ∃ c, count_rule_out assignment val l count d = Ok (c, d).
Proof.
  induction l as [|n l IH]; intros Hd count; cbn [count_rule_out].
  - by eexists.
  - destruct (assignment !! n).
    + apply IH. intros; apply Hd; by right.
    + destruct (Hd n ltac:(left)) as [D HD].
      unfold bind, get_domain. rewrite HD.
      apply IH. intros; apply Hd; by right.
Qed.

Lemma order_domain_values_spec cw var (assignment : Assignment)
    (d : Domains) (D : gset string) :
  d !! var = Some D →
  (∀ n, n ∈ neighbors cw var → is_Some (d !! n)) →
  ∃ values, order_domain_values cw var assignment d = Ok (values, d) ∧
            values ≡ₚ elements D.
Proof.
  intros HD Hn. unfold order_domain_values.
  unfold bind at 1, get_domain at 1. rewrite HD.
  destruct (list_comp_returns
              (λ val, count_rule_out assignment val
                        (elements (neighbors cw var)) 0)
              (elements D) d) as (counts & Hcounts & Hlen).
  { intros val _. apply count_rule_out_returns.
    intros n Hin%elem_of_elements. by apply Hn. }
  unfold bind. rewrite Hcounts. eexists. split; [done|].
  rewrite sorted_Permutation. rewrite fst_zip; [done|]. by rewrite Hlen.
Qed.

Lemma zip_fmap_r {A B} (f : A → B) (l : list A) :
  zip l (f <$> l) = (λ x, (x, f x)) <$> l.
Proof. induction l as [|x l IH]; cbn; [done|]. by rewrite <- IH. Qed.

Lemma compare_lt_iff (x y : Var * nat * nat) :
  (compare x y < 0)%Z ↔
  (x.1.2 < y.1.2 ∨ (x.1.2 = y.1.2 ∧ y.2 < x.2))%nat.
Proof. unfold compare. repeat case_decide; lia. Qed.

(** [select_unassigned_variable] returns an unassigned slot of the grid
    that no other unassigned slot precedes in the order of [compare]. *)
Lemma select_unassigned_variable_minimal cw (assignment : Assignment)
    (d : Domains) :
  (∀ v, v ∈ variables cw → is_Some (d !! v)) →
  assignment_complete cw assignment = false →
  ∃ var, select_unassigned_variable cw assignment d = Ok (var, d) ∧
         var ∈ variables cw ∧ assignment !! var = None ∧
         ∀ u, u ∈ variables cw → assignment !! u = None →
              ¬ (compare (u, size (d !!! u), size (neighbors cw u))
                         (var, size (d !!! var), size (neighbors cw var))
                 < 0)%Z.
Proof.
  intros Hd Hinc. unfold select_unassigned_variable.
  set (variable := elements (variables cw ∖ dom assignment)).
  assert (∀ v, v ∈ variable ↔ v ∈ variables cw ∧ assignment !! v = None)
    as Hvar.
  { intros v. unfold variable.
    rewrite elem_of_elements, elem_of_difference, not_elem_of_dom. done. }
  unfold bind at 1.
  rewrite (list_comp_fmap _ (λ v, size (d !!! v)) variable).
  2:{ intros v [Hv _]%Hvar. destruct (Hd v Hv) as [D HD].
      unfold bind, get_domain. rewrite HD.
      by rewrite (lookup_total_correct _ _ _ HD). }
  rewrite zip_fmap_r.
  set (deg := λ var, size (neighbors cw var)).
  set (lt := λ x y : Var * nat * nat, bool_decide (compare x y < 0)%Z).
  set (temp := zip _ _).
  assert (temp = (λ v, (v, size (d !!! v), deg v)) <$> variable) as ->.
  { unfold temp. clear. induction variable as [|v l IH]; cbn; [done|].
    by rewrite <- IH. }
  destruct (sorted lt _) as [|t ts] eqn:Hsorted.
  { exfalso. apply (f_equal length) in Hsorted.
    rewrite (Permutation_length (sorted_Permutation _ _)) in Hsorted.
    rewrite length_fmap in Hsorted. cbn in Hsorted.
    apply nil_length_inv in Hsorted.
    unfold assignment_complete in Hinc.
    apply not_true_iff_false in Hinc. apply Hinc.
    apply forallb_forall. intros x Hx%list_elem_of_In%elem_of_elements.
    apply bool_decide_eq_true. apply not_eq_None_Some. intros Hnone.
    assert (x ∈ variable) as Hin by (by apply Hvar).
    rewrite Hsorted in Hin. by apply elem_of_nil in Hin. }
  assert (t ∈ (λ v, (v, size (d !!! v), deg v)) <$> variable) as Ht.
  { rewrite <- (sorted_Permutation lt), Hsorted. left. }
  apply list_elem_of_fmap in Ht as (var & -> & Hin).
  exists var. split; [done|]. apply Hvar in Hin as [Hv Hnone].
  split_and!; [done..|]. intros u Hu Hunone.
  assert (lt (u, size (d !!! u), deg u) (var, size (d !!! var), deg var)
          = false) as Hlt.
  { eapply (sorted_head lt); [| |exact Hsorted|].
    - intros x y Hxy%bool_decide_eq_true%compare_lt_iff.
      apply bool_decide_eq_false. rewrite compare_lt_iff. lia.
    - intros x y z Hxz%bool_decide_eq_true%compare_lt_iff.
      unfold lt. rewrite !bool_decide_eq_true, !compare_lt_iff. lia.
    - apply list_elem_of_fmap. exists u. split; [done|]. by apply Hvar. }
  by apply bool_decide_eq_false in Hlt.
Qed.

Lemma select_unassigned_variable_spec cw (assignment : Assignment)
    (d : Domains) :
  (∀ v, v ∈ variables cw → is_Some (d !! v)) →
  assignment_complete cw assignment = false →
  ∃ var, select_unassigned_variable cw assignment d = Ok (var, d) ∧
         var ∈ variables cw ∧ assignment !! var = None ∧
         ∀ u, u ∈ variables cw → assignment !! u = None →
              (size (d !!! var) ≤ size (d !!! u))%nat.
Proof.
  intros Hd Hinc.
  destruct (select_unassigned_variable_minimal cw assignment d Hd Hinc)
    as (var & Hsel & Hvar & Hnone & Hmin).
  exists var. split_and!; [done..|]. intros u Hu Hunone.
  specialize (Hmin u Hu Hunone). rewrite compare_lt_iff in Hmin.
  cbn [fst snd] in Hmin. lia.
Qed.

(** ** Backtracking search *)

Lemma assignment_complete_true cw (assignment : Assignment) :
  assignment_complete cw assignment = true ↔ variables cw ⊆ dom assignment.
Proof.
  unfold assignment_complete. rewrite forallb_forall. split.
  - intros Hall x Hx. apply elem_of_dom.
    eapply bool_decide_eq_true, Hall, list_elem_of_In, elem_of_elements, Hx.
  - intros Hsub x Hx%list_elem_of_In%elem_of_elements.
    apply bool_decide_eq_true, elem_of_dom, Hsub, Hx.
Qed.

Lemma drawn_from_fits cw (d : Domains) (assignment : Assignment) :
  domains_fit cw d → drawn_from d assignment → fits assignment.
Proof.
  intros [_ Hfit] Hdrawn x w Hx.
  destruct (Hdrawn x w Hx) as (D & HD & Hw). by eapply Hfit.
Qed.

Section backtrack.
Context (cw : Crossword) (d : Domains).
Hypothesis Hwf : wf_crossword cw.
Hypothesis Hfit : domains_fit cw d.

Lemma drawn_from_insert (assignment : Assignment) var value
    (D : gset string) :
  d !! var = Some D → value ∈ D → drawn_from d assignment →
  drawn_from d (<[var := value]> assignment).
Proof.
  intros HD Hvalue Hdrawn x w.
  destruct (decide (x = var)) as [->|Hne].
  - rewrite lookup_insert_eq. intros [= <-]. eauto.
  - rewrite lookup_insert_ne by done. apply Hdrawn.
Qed.

Lemma backtrack_loop_spec rec var (D : gset string)
    (assignment : Assignment) :
  var ∈ variables cw → assignment !! var = None →
  admissible cw d assignment → d !! var = Some D →
  (∀ value, admissible cw d (<[var := value]> assignment) →
     ∃ r, rec (<[var := value]> assignment) d = Ok (r, d) ∧
          backtrack_post cw d (<[var := value]> assignment) r) →
  ∀ values, (∀ w, w ∈ values → w ∈ D) →
    ∃ r, backtrack_loop rec cw var values assignment d = Ok (r, d) ∧
         backtrack_post cw d assignment r.
Proof.
  intros Hvar Hnone (Hdom & Hdrawn & Hdist & Hagree) HD Hrec.
  induction values as [|value values IH]; intros Hvalues;
    cbn [backtrack_loop].
  - exists (false, assignment). done.
  - destruct IH as (r & Hloop & Hpost); [intros; apply Hvalues; by right|].
    set (a1 := <[var := value]> assignment).
    assert (drawn_from d a1) as Hdrawn1.
    { eapply drawn_from_insert; [done| |done]. apply Hvalues. left. }
    destruct (consistent_decides cw a1 d Hwf
                (drawn_from_fits cw d a1 Hfit Hdrawn1))
      as (ok & Hcons & Hok).
    assert (dict_del var a1 d = Ok (assignment, d)) as Hdel.
    { unfold dict_del, a1. rewrite lookup_insert_eq.
      by rewrite delete_insert_id. }
    unfold bind at 1. rewrite Hcons. destruct ok.
    + assert (<[var := value]> a1 = a1) as ->
        by (unfold a1; apply insert_insert_eq).
      destruct (Hrec value) as ([found a'] & Hcall & Hpost').
      { destruct Hok as [[Hdist1 Hagree1] _]; [done|].
        split_and!; [|done..]. unfold a1. rewrite dom_insert_L.
        apply union_subseteq. split; [|done].
        by apply singleton_subseteq_l. }
      unfold bind at 1. fold a1 in Hcall. rewrite Hcall. cbv beta iota.
      destruct found.
      * exists (true, a'). done.
      * unfold backtrack_post in Hpost'. cbn [fst snd] in Hpost'.
        fold a1 in Hpost'. rewrite Hpost'.
        unfold bind. rewrite Hdel. eauto.
    + unfold bind. rewrite Hdel. eauto.
Qed.

(** [backtrack] returns once its budget exceeds the number of slots
    still to fill. *)
Lemma backtrack_spec fuel :
  ∀ assignment : Assignment,
    admissible cw d assignment →
    (size (variables cw ∖ dom assignment) < fuel)%nat →
    ∃ r, backtrack fuel cw assignment d = Ok (r, d) ∧
         backtrack_post cw d assignment r.
Proof.
  induction fuel as [|fuel IH]; intros assignment Hadm Hfuel; [lia|].
  cbn [backtrack].
  destruct (assignment_complete cw assignment) eqn:Hcomplete.
  - exists (true, assignment). split; [done|].
    split; [|done]. apply assignment_complete_true in Hcomplete.
    destruct Hadm as [Hdom _]. unfold total. apply set_eq.
    intros x. split; [apply Hdom | apply Hcomplete].
  - destruct Hfit as [Hdomd _].
    assert (∀ v, v ∈ variables cw → is_Some (d !! v)) as Hkeys.
    { intros v Hv. apply elem_of_dom. by rewrite Hdomd. }
    destruct (select_unassigned_variable_spec cw assignment d Hkeys
                Hcomplete) as (var & Hsel & Hvar & Hnone & _).
    unfold bind at 1. rewrite Hsel.
    destruct (Hkeys var Hvar) as [D HD].
    destruct (order_domain_values_spec cw var assignment d D HD)
      as (values & Hord & Hperm).
    { intros n Hn. apply Hkeys. by eapply wf_neighbor_var. }
    unfold bind at 1. rewrite Hord.
    eapply (backtrack_loop_spec _ var D); try done.
    + intros value Hadm1. apply IH; [done|].
      eapply Nat.lt_le_trans; [|apply Nat.lt_succ_r, Hfuel].
      apply subset_size. rewrite dom_insert_L.
      replace (variables cw ∖ ({[var]} ∪ dom assignment))
        with ((variables cw ∖ dom assignment) ∖ {[var]}).
      2:{ apply set_eq. intros u.
          rewrite !elem_of_difference, elem_of_union, elem_of_singleton.
          tauto. }
      apply subset_difference_elem_of, elem_of_difference.
      split; [done|]. by apply not_elem_of_dom.
    + intros w Hw. rewrite Hperm in Hw. by apply elem_of_elements.
Qed.
End backtrack.

(** ** [solve] *)

Lemma shrinks_dom (d d' : Domains) : shrinks d d' → dom d' = dom d.
Proof.
  intros Hs. apply set_eq. intros s. rewrite !elem_of_dom.
  specialize (Hs s). destruct Hs as [? ? _|]; split; intros [? [=]]; eauto.
Qed.

Lemma shrinks_domains_fit cw (d d' : Domains) :
  shrinks d d' → domains_fit cw d → domains_fit cw d'.
Proof.
  intros Hs [Hdom Hfit]. split; [by rewrite (shrinks_dom d d')|].
  intros s D' w HD' Hw. specialize (Hs s). rewrite HD' in Hs.
  destruct (d !! s) as [D|] eqn:HD; [|inversion Hs].
  inversion Hs as [? ? Hsub|]; subst.
  eapply Hfit; [exact HD|]. by apply Hsub.
Qed.

Lemma node_consistency_domains_fit cw (d : Domains) :
  enforce_node_consistency cw (init_domains cw) = Ok (tt, d) →
  domains_fit cw d.
Proof.
  intros Hrun.
  destruct (enforce_node_consistency_lookup cw) as (d' & Hrun' & Hd').
  rewrite Hrun in Hrun'. injection Hrun' as <-. split.
  - apply set_eq. intros s. rewrite elem_of_dom, Hd'.
    case_decide; split; try done; eauto; by intros [? [=]].
  - intros s D w. rewrite Hd'. case_decide; [|done].
    intros [= <-] [Hw _]%elem_of_filter. done.
Qed.

Lemma set_pop_returns (pick : list Arc → nat) (queue : gset Arc)
    (d : Domains) :
  size queue ≠ 0 →
  ∃ arc : Arc, arc ∈ queue ∧ set_pop pick queue d = Ok ((arc, queue ∖ {[arc]}), d).
Proof.
  intros Hsize. unfold set_pop, size, set_size in *. cbn in Hsize.
  destruct (lookup_lt_is_Some_2 (elements queue)
              (pick (elements queue) `mod` length (elements queue)))
    as [arc Harc].
  { apply Nat.mod_upper_bound. done. }
  exists arc. rewrite Harc. split; [|done].
  apply elem_of_elements. by eapply list_elem_of_lookup_2.
Qed.

(** On a well-formed crossword with fitting domains, [ac3] returns. *)
Lemma ac3_returns cw arcs pick (d : Domains) :
  wf_crossword cw → domains_fit cw d →
  ∃ r d', ac3 cw arcs pick d = Ok (r, d').
Proof.
  intros Hwf [Hdom Hfit].
  assert (∃ r d', ac3_run cw arcs pick d = Ok (r, d')) as ([r q] & d' & Hrun);
    [|exists r, d'; apply ac3_Ok; eauto].
  unfold ac3_run. case_decide as Hsize; [|by eexists _, _].
  destruct (set_pop_returns pick _ d Hsize) as ([x y] & Harc & Hpop).
  apply elem_of_initial_queue in Harc as [Hx Hy].
  unfold bind at 1. rewrite Hpop.
  destruct (wf_neighbor_overlap cw Hwf x y Hy) as (a & b & Ho & Ha & Hb).
  pose proof (wf_neighbor_var cw Hwf x y Hy) as Hyv.
  pose proof (wf_neighbor_ne cw Hwf x y Hy) as Hne.
  rewrite <- Hdom in Hx, Hyv.
  apply elem_of_dom in Hx as [Dx HDx]. apply elem_of_dom in Hyv as [Dy HDy].
  unfold bind at 1.
  rewrite (revise_eq cw x y a b Dx Dy) by done.
  rewrite decide_True.
  2:{ intros w Hw c Hc. split; apply string_get_is_Some.
      - by rewrite (Hfit x Dx w HDx Hw).
      - by rewrite (Hfit y Dy c HDy Hc). }
  case_bool_decide; [|by eexists _, _].
  unfold bind, get_domain. rewrite lookup_insert_eq.
  case_decide; by eexists _, _.
Qed.

(** C5. On a well-formed crossword, with a budget above the number of
    slots, [solve] returns; it returns [None] or an assignment that is
    total on the slots of the grid, whose every word has the length of
    its slot, in which every slot agrees with each of its neighbours on
    the letter of the shared cell, and in which no two slots hold the
    same word. *)
Theorem solve_sound fuel cw pick :
  wf_crossword cw → (size (variables cw) < fuel)%nat →
  ∃ r d', solve fuel cw pick (init_domains cw) = Ok (r, d') ∧
          ∀ assignment, r = Some assignment →
            total cw assignment ∧ fits assignment ∧
            overlaps_agree cw assignment ∧ words_distinct assignment.
Proof.
  intros Hwf Hfuel. unfold solve.
  destruct (enforce_node_consistency_lookup cw) as (d1 & Hnode & _).
  pose proof (node_consistency_domains_fit cw d1 Hnode) as Hfit1.
  unfold bind at 1. rewrite Hnode.
  destruct (ac3_returns cw None pick d1 Hwf Hfit1) as (r2 & d2 & Hac3).
  unfold bind at 1. rewrite Hac3.
  assert (domains_fit cw d2) as Hfit2.
  { apply ac3_Ok in Hac3 as [q Hrun%ac3_run_shrinks].
    by eapply shrinks_domains_fit. }
  destruct (backtrack_spec cw d2 Hwf Hfit2 fuel ∅) as ([found a] & Hbt & Hpost).
  { split_and!.
    - rewrite dom_empty_L. apply empty_subseteq.
    - intros x w. by rewrite lookup_empty.
    - intros x y wx wy. by rewrite lookup_empty.
    - intros x wx var. by rewrite lookup_empty. }
  { rewrite dom_empty_L, difference_empty_L. done. }
  unfold bind. rewrite Hbt. eexists _, _. split; [done|].
  intros assignment. destruct found; [|done]. intros [= <-].
  destruct Hpost as (Htotal & _ & Hdrawn & Hdist & Hagree).
  split_and!; try done. by eapply drawn_from_fits.
Qed.

(** C9. A call of [backtrack] that returns leaves [self.domains] as it
    found it, and so do the calls of [select_unassigned_variable],
    [order_domain_values] and [consistent] that it makes: the search
    changes the assignment only. *)
Theorem backtrack_leaves_domains fuel cw (assignment : Assignment)
    (d d' : Domains) r :
  backtrack fuel cw assignment d = Ok (r, d') →
  d' = d ∧
  preserves (select_unassigned_variable cw assignment) ∧
  (∀ var, preserves (order_domain_values cw var assignment)) ∧
  preserves (consistent cw assignment).
Proof.
  intros Hrun%preserves_backtrack. split_and!; [done|..]; auto with frame.
Qed.

(** C3 (amended). On a well-formed crossword in which node consistency
    leaves some slot without a word, [solve] returns [None] as soon as
    its budget allows one call of [backtrack]: the search is entered and
    fails at its root, on a slot with an empty domain. *)
Theorem solve_unsatisfiable_after_node_consistency fuel cw pick
    (d1 : Domains) s :
  wf_crossword cw → (0 < fuel)%nat →
  enforce_node_consistency cw (init_domains cw) = Ok (tt, d1) →
  d1 !! s = Some ∅ →
  ∃ d', solve fuel cw pick (init_domains cw) = Ok (None, d').
Proof.
  intros Hwf Hfuel Hnode Hs. unfold solve.
  pose proof (node_consistency_domains_fit cw d1 Hnode) as Hfit1.
  unfold bind at 1. rewrite Hnode.
  destruct (ac3_returns cw None pick d1 Hwf Hfit1) as (r2 & d2 & Hac3).
  unfold bind at 1. rewrite Hac3.
  apply ac3_Ok in Hac3 as [q Hshr%ac3_run_shrinks].
  pose proof (shrinks_domains_fit cw d1 d2 Hshr Hfit1) as [Hdom2 Hfit2].
  assert (d2 !! s = Some ∅) as Hs2.
  { specialize (Hshr s). rewrite Hs in Hshr.
    destruct (d2 !! s) as [D'|]; [|inversion Hshr].
    inversion Hshr as [? ? Hsub|]; subst. f_equal.
    apply set_eq. intros w. split; [apply Hsub | by intros ?%elem_of_empty]. }
  assert (s ∈ variables cw) as Hsv.
  { rewrite <- Hdom2. apply elem_of_dom. eauto. }
  destruct fuel as [|fuel]; [lia|]. cbn [backtrack].
  assert (assignment_complete cw ∅ = false) as Hcomplete.
  { apply not_true_iff_false. intros Hc%assignment_complete_true.
    apply Hc in Hsv. rewrite dom_empty_L in Hsv. by apply elem_of_empty in Hsv. }
  rewrite Hcomplete.
  destruct (select_unassigned_variable_spec cw ∅ d2) as
    (var & Hsel & Hvar & _ & Hmin); [|done|].
  { intros v Hv. apply elem_of_dom. by rewrite Hdom2. }
  specialize (Hmin s Hsv (lookup_empty s)).
  rewrite (lookup_total_correct _ _ _ Hs2), size_empty in Hmin.
  assert (d2 !! var = Some ∅) as Hvar2.
  { rewrite <- Hdom2 in Hvar. apply elem_of_dom in Hvar as [D HD].
    rewrite (lookup_total_correct _ _ _ HD) in Hmin. rewrite HD. f_equal.
    apply leibniz_equiv, size_empty_inv. lia. }
  destruct (order_domain_values_spec cw var ∅ d2 ∅ Hvar2)
    as (values & Hord & Hperm).
  { intros n Hn. apply elem_of_dom. rewrite Hdom2.
    by eapply wf_neighbor_var. }
  rewrite elements_empty in Hperm. apply Permutation_nil_r in Hperm as ->.
  unfold bind. rewrite Hsel, Hord. cbn. eauto.
Qed.

(** ** The claims on the example grids *)

Lemma cw2_wf : wf_crossword cw2.
Proof. destruct cw0_wf as [H1 H2 H3]. split; assumption. Qed.

Lemma cw2_node_consistent :
  enforce_node_consistency cw2 (init_domains cw2) = Ok (tt, d2).
Proof. compute_done. Qed.

(** On [cw2], with both domains empty, [ac3] returns [True] whichever
    arc [pop] yields. *)
Lemma cw2_ac3 (pick : list Arc → nat) :
  ac3 cw2 None pick d2 = Ok (Some true, d2).
Proof.
  apply ac3_Ok.
  set (l := elements (initial_queue cw2 None)).
  assert (length l = 2) as Hlen by compute_done.
  assert (pick l `mod` length l < 2)%nat as Hlt.
  { rewrite Hlen. apply Nat.mod_upper_bound. lia. }
  destruct (pick l `mod` length l) as [|[|n]] eqn:Hpick; [| |lia].
  - rewrite (ac3_run_pick cw2 None pick (λ _, 0))
      by (cbn zeta; fold l; rewrite Hpick, Hlen; reflexivity).
    exists {[ (Y0, X0) ]}. compute_done.
  - rewrite (ac3_run_pick cw2 None pick (λ _, 1))
      by (cbn zeta; fold l; rewrite Hpick, Hlen; reflexivity).
    exists {[ (X0, Y0) ]}. compute_done.
Qed.

(** C3, as stated, fails on [cw2].  Node consistency empties the domain
    of [X0]; [ac3] then returns [True], not [False], whichever arc it
    pops; and [solve] goes on to call [backtrack]: with no budget for
    that call it does not return, with a budget of one call it returns
    [None]. *)
Lemma solve_enters_backtrack_on_empty_domain :
  enforce_node_consistency cw2 (init_domains cw2) = Ok (tt, d2) ∧
  d2 !! X0 = Some ∅ ∧
  ∀ pick,
    ac3 cw2 None pick d2 = Ok (Some true, d2) ∧
    solve 0 cw2 pick (init_domains cw2) = Raise OutOfFuel ∧
    solve 1 cw2 pick (init_domains cw2) = Ok (None, d2).
Proof.
  split; [exact cw2_node_consistent|]. split; [compute_done|].
  intros pick. split; [apply cw2_ac3|].
  unfold solve. unfold bind at 1 4. rewrite cw2_node_consistent.
  unfold bind at 1 3. rewrite cw2_ac3. split; compute_done.
Qed.

Lemma solve_unsatisfiable_after_node_consistency_witness :
  wf_crossword cw2 ∧ (0 < 1)%nat ∧
  enforce_node_consistency cw2 (init_domains cw2) = Ok (tt, d2) ∧
  d2 !! X0 = Some ∅ ∧
  ∃ d', solve 1 cw2 (λ _, 0) (init_domains cw2) = Ok (None, d').
Proof.
  split; [exact cw2_wf|]. split; [lia|].
  split; [compute_done|]. split; [compute_done|].
  apply (solve_unsatisfiable_after_node_consistency 1 cw2 (λ _, 0) d2 X0
           cw2_wf); [lia | compute_done | compute_done].
Defined.

Lemma solve_sound_witness :
  wf_crossword cw0 ∧ (size (variables cw0) < 3)%nat ∧
  ∃ r d', solve 3 cw0 (λ _, 0) (init_domains cw0) = Ok (r, d') ∧
          ∀ assignment, r = Some assignment →
            total cw0 assignment ∧ fits assignment ∧
            overlaps_agree cw0 assignment ∧ words_distinct assignment.
Proof.
  split; [exact cw0_wf|]. split; [compute_done|].
  apply (solve_sound 3 cw0 (λ _, 0) cw0_wf). compute_done.
Defined.

Lemma a0_fits : fits a0.
Proof.
  intros x w. unfold a0.
  destruct (decide (x = X0)) as [->|?];
    [|destruct (decide (x = Y0)) as [->|?]].
  - rewrite lookup_insert_eq. by intros [= <-].
  - rewrite lookup_insert_ne by done. rewrite lookup_singleton_eq.
    by intros [= <-].
  - rewrite lookup_insert_ne by done. by rewrite lookup_singleton_ne.
Qed.

Lemma consistent_spec_witness :
  wf_crossword cw0 ∧ fits a0 ∧
  ∃ ok : bool,
    consistent cw0 a0 d0 = Ok (ok, d0) ∧
    (¬ words_distinct a0 → ok = false) ∧
    (¬ overlaps_agree cw0 a0 → ok = false) ∧
    (words_distinct a0 → overlaps_agree cw0 a0 → ok = true).
Proof.
  split; [exact cw0_wf|]. split; [exact a0_fits|].
  exact (consistent_spec cw0 a0 d0 cw0_wf a0_fits).
Defined.

Lemma backtrack_leaves_domains_witness :
  backtrack 3 cw0 ∅ d0 = Ok ((true, a0), d0) ∧
  d0 = d0 ∧
  preserves (select_unassigned_variable cw0 ∅) ∧
  (∀ var, preserves (order_domain_values cw0 var ∅)) ∧
  preserves (consistent cw0 ∅).
Proof.
  split; [compute_done|].
  apply (backtrack_leaves_domains 3 cw0 ∅ d0 d0 (true, a0)). compute_done.
Defined.

Example solve_cw0 :
  solve 3 cw0 (λ _, 0) (init_domains cw0)
  = Ok (Some a0, {[ X0 := {["AB"]}; Y0 := {["AXX"; "EFF"]} ]}).
Proof. compute_done. Qed.

(** ** More on [revise], node consistency and [ac3] *)

(** X1. On two distinct slots that have domains and an overlap [(a, b)],
    when every comparison of letters can be evaluated, [revise] returns;
    it leaves every other domain as it was, keeps in the domain of [x]
    exactly the words whose letter at [a] is the letter at [b] of some
    word of the domain of [y], and returns [True] exactly when a word
    was removed. *)
Theorem revise_contract cw x y a b (Dx Dy : gset string) (d : Domains) :
  x ≠ y → overlaps cw x y = Some (a, b) →
  d !! x = Some Dx → d !! y = Some Dy →
  set_Forall (comparable a b Dy) Dx →
  ∃ (revised : bool) (d' : Domains),
    revise cw x y d = Ok (revised, d') ∧
    (∀ s, s ≠ x → d' !! s = d !! s) ∧
    (∃ Dx' : gset string,
       d' !! x = Some Dx' ∧
       ∀ w, w ∈ Dx' ↔
            w ∈ Dx ∧ ∃ w', w' ∈ Dy ∧ letters_match w a w' b) ∧
    (revised = true ↔ ∃ w, w ∈ Dx ∧ ¬ supported a b Dy w).
Proof.
  intros Hxy Ho Hx Hy Hc.
  rewrite (revise_eq cw x y a b Dx Dy d Hxy Ho Hx Hy).
  rewrite decide_True by done. eexists _, _. split; [done|]. split_and!.
  - intros s Hs. by rewrite lookup_insert_ne.
  - eexists. split; [by rewrite lookup_insert_eq|].
    intros w. rewrite elem_of_filter. unfold supported, set_Exists. tauto.
  - rewrite bool_decide_eq_true. split.
    + intros Hne. apply dec_stable. intros Hall. apply Hne.
      apply set_eq. intros w. rewrite elem_of_filter. split; [tauto|].
      intros Hw. split; [|done]. apply dec_stable. intros Hn.
      apply Hall. eauto.
    + intros (w & Hw & Hn) Heq. rewrite <- Heq in Hw.
      by apply elem_of_filter in Hw as [? _].
Qed.

(** X2. [revise] raises [IndexError] when the domain of [x] holds a
    word too short for the overlap index [a], or the domain of [y] a word
    too short for [b], and neither domain is empty: it is to be called on
    node-consistent domains. *)
Theorem revise_IndexError cw x y a b (Dx Dy : gset string) (d : Domains)
    w w' :
  x ≠ y → overlaps cw x y = Some (a, b) →
  d !! x = Some Dx → d !! y = Some Dy →
  w ∈ Dx → w' ∈ Dy →
  (String.length w ≤ a ∨ String.length w' ≤ b)%nat →
  revise cw x y d = Raise IndexError.
Proof.
  intros Hxy Ho Hx Hy Hw Hw' Hshort.
  rewrite (revise_eq cw x y a b Dx Dy d Hxy Ho Hx Hy).
  rewrite decide_False; [done|]. intros Hall.
  destruct (Hall w Hw w' Hw') as [H1%string_get_is_Some H2%string_get_is_Some].
  lia.
Qed.

(** The inner loop of [enforce_node_consistency] on a slot whose domain
    is already filtered: it passes over fitting words and raises at the
    first word of another length. *)
Lemma node_consistency_words_again (s : Var) (W : gset string) (l : list string)
    (d : Domains) :
  d !! s = Some (filter (right_length s) W) →
  for_each l (λ word,
    if decide (var_length s ≠ String.length word)
    then domain_remove s word else ret tt) d
  = if decide (Forall (right_length s) l) then Ok (tt, d) else Raise KeyError.
Proof.
  intros Hs. induction l as [|w l IH]; cbn [for_each].
  - by rewrite decide_True by constructor.
  - unfold bind.
    destruct (decide (var_length s ≠ String.length w)) as [Hlen|Hlen].
    + unfold domain_remove. rewrite Hs.
      rewrite decide_False.
      2:{ intros [Hr _]%elem_of_filter. unfold right_length in Hr. congruence. }
      rewrite decide_False; [done|].
      intros [Hr _]%Forall_cons. unfold right_length in Hr. congruence.
    + unfold ret at 1. rewrite IH.
      assert (right_length s w) as Hr.
      { unfold right_length.
        destruct (decide (String.length w = var_length s)); [done|].
        destruct Hlen. congruence. }
      destruct (decide (Forall (right_length s) l)) as [Hl|Hl].
      * by rewrite decide_True by (by constructor).
      * rewrite decide_False; [done|]. by intros [_ ?]%Forall_cons.
Qed.

Lemma node_consistency_slots_again cw (l : list Var) (d : Domains) :
  (∀ s, s ∈ l → d !! s = Some (filter (right_length s) (words cw))) →
  for_each l (λ variable,
    for_each (elements (words cw)) (λ word,
      if decide (var_length variable ≠ String.length word)
      then domain_remove variable word else ret tt)) d
  = if decide (Forall (λ s, Forall (right_length s) (elements (words cw))) l)
    then Ok (tt, d) else Raise KeyError.
Proof.
  induction l as [|s l IH]; intros Hd; cbn [for_each].
  - by rewrite decide_True by constructor.
  - unfold bind.
    rewrite (node_consistency_words_again s (words cw)) by (apply Hd; left).
    destruct (decide (Forall (right_length s) (elements (words cw))))
      as [Hs|Hs].
    + rewrite IH by (intros; apply Hd; by right).
      destruct (decide (Forall _ l)) as [Hl|Hl].
      * by rewrite decide_True by (by constructor).
      * rewrite decide_False; [done|]. by intros [_ ?]%Forall_cons.
    + rewrite decide_False; [done|]. by intros [? _]%Forall_cons.
Qed.

(** X3. [enforce_node_consistency] is not to be called twice: on the
    domains that a first call leaves, a second call raises [KeyError] as
    soon as some word of the vocabulary has not the length of some slot
    ([set.remove] of a word that is gone), and changes nothing when every
    word fits every slot. *)
Theorem enforce_node_consistency_twice cw (d1 : Domains) :
  enforce_node_consistency cw (init_domains cw) = Ok (tt, d1) →
  ((∀ s w, s ∈ variables cw → w ∈ words cw →
           String.length w = var_length s) →
   enforce_node_consistency cw d1 = Ok (tt, d1)) ∧
  (∀ s w, s ∈ variables cw → w ∈ words cw →
          String.length w ≠ var_length s →
          enforce_node_consistency cw d1 = Raise KeyError).
Proof.
  intros Hrun.
  destruct (enforce_node_consistency_lookup cw) as (d' & Hrun' & Hd').
  rewrite Hrun in Hrun'. injection Hrun' as <-.
  unfold enforce_node_consistency at 1 2.
  rewrite (node_consistency_slots_again cw).
  2:{ intros s Hs%elem_of_elements. rewrite Hd'. by rewrite decide_True. }
  split.
  - intros Hall. rewrite decide_True; [done|].
    apply Forall_forall. intros s Hs%elem_of_elements.
    apply Forall_forall. intros w Hw%elem_of_elements. by apply Hall.
  - intros s w Hs Hw Hlen. rewrite decide_False; [done|].
    intros Hall. rewrite Forall_forall in Hall.
    specialize (Hall s ltac:(by apply elem_of_elements)).
    rewrite Forall_forall in Hall.
    apply Hlen, (Hall w). by apply elem_of_elements.
Qed.

(** The loop of [revise] writes to the domain of [x] alone. *)
Lemma revise_loop_others x y a b l :
  ∀ revision check r (d d' : Domains),
    revise_loop x y a b l revision check d = Ok (r, d') →
    ∀ s, s ≠ x → d' !! s = d !! s.
Proof.
  induction l as [|w l IH]; intros revision check r d d' Hrun s Hs;
    cbn [revise_loop] in Hrun.
  - by apply ret_Ok in Hrun as [_ ->].
  - apply bind_Ok in Hrun as (Dy & d1 & [Hy ->]%get_domain_Ok & Hrun).
    apply bind_Ok in Hrun as (check1 & d2 & ->%revise_check_state & Hrun).
    apply bind_Ok in Hrun as (revision1 & d3 & Hrem & Hrun).
    rewrite (IH _ _ _ _ _ Hrun s Hs).
    case_decide.
    + apply bind_Ok in Hrem as ([] & d4 & Hrem & [_ ->]%ret_Ok).
      apply domain_remove_Ok in Hrem as (D & Hx & _ & ->).
      by rewrite lookup_insert_ne.
    + by apply ret_Ok in Hrem as [_ ->].
Qed.

Lemma revise_others cw x y r (d d' : Domains) :
  revise cw x y d = Ok (r, d') → ∀ s, s ≠ x → d' !! s = d !! s.
Proof.
  unfold revise, get_overlap. intros Hrun.
  destruct (overlaps cw x y) as [[a b]|]; [|done].
  apply bind_Ok in Hrun as (ab & d1 & [<- ->]%ret_Ok & Hrun).
  apply bind_Ok in Hrun as (Dx & d2 & [_ ->]%get_domain_Ok & Hrun).
  by eapply revise_loop_others.
Qed.

(** What a returning [ac3] has done: nothing when the grid has no arc,
    else one [revise] of an arc of the grid. *)
Lemma ac3_inv cw arcs pick r (d d' : Domains) :
  ac3 cw arcs pick d = Ok (r, d') →
  (r = None ∧ d' = d ∧ initial_queue cw arcs = ∅) ∨
  ∃ x y (revised : bool),
    x ∈ variables cw ∧ y ∈ neighbors cw x ∧
    revise cw x y d = Ok (revised, d') ∧
    r = Some (negb (revised && bool_decide (d' !! x = Some ∅))).
Proof.
  intros (q & Hrun)%ac3_Ok. unfold ac3_run in Hrun.
  case_decide as Hsize.
  - right.
    apply bind_Ok in Hrun as ([[x y] q1] & d1 & (Harc & _ & ->)%set_pop_inv
                                & Hrun).
    apply elem_of_initial_queue in Harc as [Hx Hy].
    apply bind_Ok in Hrun as (revised & d2 & Hrev & Hrun).
    exists x, y, revised. destruct revised.
    + apply bind_Ok in Hrun as (Dx & d3 & [HDx ->]%get_domain_Ok & Hrun).
      case_decide as Hempty; apply ret_Ok in Hrun as [[= <- _] ->];
        split_and!; try done; cbn [andb negb]; do 2 f_equal.
      * apply size_empty_inv, leibniz_equiv in Hempty. subst Dx.
        by rewrite bool_decide_eq_true_2.
      * rewrite bool_decide_eq_false_2; [done|]. rewrite HDx.
        intros [= ->]. by rewrite size_empty in Hempty.
    + apply ret_Ok in Hrun as [[= <- _] ->]. done.
  - left. apply ret_Ok in Hrun as [[= <- _] ->]. split_and!; [done..|].
    by apply size_empty_inv, leibniz_equiv in Hsize.
Qed.

(** X4. A call of [ac3] that returns has changed at most one domain:
    the domains are as they were, or they differ in the domain of one
    slot [x] of the grid, the first slot of an arc [(x, y)]. *)
Theorem ac3_changes_one_domain cw arcs pick r (d d' : Domains) :
  ac3 cw arcs pick d = Ok (r, d') →
  d' = d ∨
  ∃ x y, x ∈ variables cw ∧ y ∈ neighbors cw x ∧
         ∀ s, s ≠ x → d' !! s = d !! s.
Proof.
  intros [(_ & -> & _)|(x & y & revised & Hx & Hy & Hrev & _)]%ac3_inv.
  - by left.
  - right. exists x, y. split_and!; [done..|]. by eapply revise_others.
Qed.

(** X5. When [ac3] returns [False], some slot of the grid has an empty
    domain that was not empty before the call. *)
Theorem ac3_False_empty_domain cw arcs pick (d d' : Domains) :
  ac3 cw arcs pick d = Ok (Some false, d') →
  ∃ x (Dx : gset string),
    x ∈ variables cw ∧ d' !! x = Some ∅ ∧ d !! x = Some Dx ∧ Dx ≠ ∅.
Proof.
  intros [([=] & _)|(x & y & revised & Hx & Hy & Hrev & Hr)]%ac3_inv.
  injection Hr as Hr. symmetry in Hr.
  apply negb_false_iff, andb_true_iff in Hr as [-> Hempty%bool_decide_eq_true].
  pose proof (revise_shrinks _ _ _ _ _ _ Hrev x) as Hshr.
  rewrite Hempty in Hshr. destruct (d !! x) as [Dx|] eqn:HDx; [|inversion Hshr].
  exists x, Dx. split_and!; try done. intros ->.
  (* a revision on an empty domain is impossible *)
  unfold revise, get_overlap in Hrev.
  destruct (overlaps cw x y) as [[a b]|]; [|done].
  apply bind_Ok in Hrev as (ab & d1 & [<- ->]%ret_Ok & Hrev).
  apply bind_Ok in Hrev as (Dx & d2 & [HDx' ->]%get_domain_Ok & Hrev).
  rewrite HDx in HDx'. injection HDx' as <-.
  rewrite elements_empty in Hrev. cbn in Hrev. done.
Qed.

(** [ac3] removes no word of a total assignment that agrees on every
    overlap. *)
Lemma ac3_preserves_drawn_from cw arcs pick r (d d' : Domains)
    (assignment : Assignment) :
  wf_crossword cw →
  ac3 cw arcs pick d = Ok (r, d') →
  total cw assignment → overlaps_agree cw assignment →
  drawn_from d assignment → drawn_from d' assignment.
Proof.
  intros Hwf [(_ & -> & _)|(x & y & revised & Hx & Hy & Hrev & _)]%ac3_inv
    Htotal Hagree Hdrawn; [done|].
  pose proof (wf_neighbor_ne cw Hwf x y Hy) as Hne.
  apply revise_inv in Hrev
    as (a & b & Dx & Ho & HDx & [(_ & _ & ->)|(Dy & HDy & _ & _ & ->)]);
    [done| |done].
  intros s w Hs. destruct (Hdrawn s w Hs) as (D & HD & Hw).
  destruct (decide (s = x)) as [->|Hsx].
  - rewrite lookup_insert_eq. eexists. split; [done|].
    rewrite HDx in HD. injection HD as <-.
    apply elem_of_filter. split; [|done].
    assert (y ∈ dom assignment) as [wy Hwy]%elem_of_dom.
    { rewrite Htotal. by eapply wf_neighbor_var. }
    destruct (Hdrawn y wy Hwy) as (Dy' & HDy' & Hwy').
    rewrite HDy in HDy'. injection HDy' as <-.
    exists wy. split; [done|]. by eapply (Hagree x w y).
  - rewrite lookup_insert_ne by done. eauto.
Qed.

(** X6. On a well-formed crossword, [ac3] prunes no solution: an
    assignment of all the slots that agrees on every overlap and takes
    its words from the domains before the call takes them from the
    domains after it. *)
Theorem ac3_keeps_solutions cw arcs pick r (d d' : Domains)
    (assignment : Assignment) :
  wf_crossword cw →
  ac3 cw arcs pick d = Ok (r, d') →
  total cw assignment → overlaps_agree cw assignment →
  drawn_from d assignment → drawn_from d' assignment.
Proof. apply ac3_preserves_drawn_from. Qed.

(** X15. On a well-formed crossword, [ac3] called on the domains that
    [enforce_node_consistency] leaves never raises: it returns, and
    every domain still holds words of the length of its slot only. *)
Theorem ac3_returns_after_node_consistency cw arcs pick (d1 : Domains) :
  wf_crossword cw →
  enforce_node_consistency cw (init_domains cw) = Ok (tt, d1) →
  ∃ r d', ac3 cw arcs pick d1 = Ok (r, d') ∧ domains_fit cw d'.
Proof.
  intros Hwf Hfit1%node_consistency_domains_fit.
  destruct (ac3_returns cw arcs pick d1 Hwf Hfit1) as (r & d' & Hac3).
  exists r, d'. split; [done|].
  apply ac3_Ok in Hac3 as [q Hshr%ac3_run_shrinks].
  by eapply shrinks_domains_fit.
Qed.

(** ** More on the heuristics and the consistency check *)

(** [assignment_complete] is [True] when every slot of the grid is a
    key, [False] when some slot is not. *)
Lemma assignment_complete_spec cw (assignment : Assignment) :
  (assignment_complete cw assignment = true ↔
   ∀ x, x ∈ variables cw → is_Some (assignment !! x)) ∧
  (assignment_complete cw assignment = false ↔
   ∃ x, x ∈ variables cw ∧ assignment !! x = None).
Proof.
  assert (assignment_complete cw assignment = true ↔
          ∀ x, x ∈ variables cw → is_Some (assignment !! x)) as Htrue.
  { rewrite assignment_complete_true. split.
    - intros Hsub x Hx. by apply elem_of_dom, Hsub.
    - intros Hall x Hx. by apply elem_of_dom, Hall. }
  split; [done|]. rewrite <- not_true_iff_false, Htrue. split.
  - intros Hn. apply dec_stable. intros Hno. apply Hn. intros x Hx.
    destruct (assignment !! x) eqn:Hax; [eauto|]. destruct Hno. eauto.
  - intros (x & Hx & Hnone) Hall. destruct (Hall x Hx) as [w Hw]. congruence.
Qed.

Section sorted_strongly.
Context {A} (lt : A → A → bool).
Hypothesis lt_asym : ∀ x y, lt x y = true → lt y x = false.
Hypothesis lt_neg_trans :
  ∀ x y z, lt x z = true → lt x y = true ∨ lt y z = true.

Lemma insert_sorted_StronglySorted x l :
  StronglySorted (λ u v, lt v u = false) l →
  StronglySorted (λ u v, lt v u = false) (insert_sorted lt x l).
Proof.
  induction l as [|y l IH]; cbn [insert_sorted]; intros Hl.
  - repeat constructor.
  - apply StronglySorted_cons in Hl as [Hy Hl].
    destruct (lt y x) eqn:Hyx.
    + apply StronglySorted_cons. split; [|by apply IH].
      rewrite (insert_sorted_Permutation lt x l).
      constructor; [by apply lt_asym | done].
    + apply StronglySorted_cons. split.
      * constructor; [done|]. eapply Forall_impl; [exact Hy|].
        intros z Hz. cbn in Hz. destruct (lt z x) eqn:Hzx; [|done].
        destruct (lt_neg_trans z y x Hzx); congruence.
      * by apply StronglySorted_cons.
Qed.

(** [sorted] puts nothing before an element that is strictly smaller. *)
Lemma sorted_StronglySorted l :
  StronglySorted (λ u v, lt v u = false) (sorted lt l).
Proof.
  induction l as [|x l IH]; [constructor|].
  unfold sorted in *. cbn [foldr]. by apply insert_sorted_StronglySorted.
Qed.
End sorted_strongly.

Lemma count_rule_out_eq (assignment : Assignment) val l (d : Domains) :
  (∀ n, n ∈ l → is_Some (d !! n)) →
  ∀ count,
    count_rule_out assignment val l count d =
    Ok (count + length (filter (λ n, assignment !! n = None ∧ val ∈ d !!! n) l),
        d).
Proof.
  induction l as [|n l IH]; intros Hd count; cbn [count_rule_out].
  - rewrite filter_nil. cbn. by rewrite Nat.add_0_r.
  - destruct (assignment !! n) eqn:Hn.
    + rewrite IH by (intros; apply Hd; by right).
      rewrite filter_cons_False; [done|]. rewrite Hn. by intros [[=] _].
    + destruct (Hd n ltac:(left)) as [D HD].
      unfold bind, get_domain. rewrite HD.
      rewrite IH by (intros; apply Hd; by right).
      case_decide as Hval.
      * rewrite filter_cons_True.
        2:{ rewrite (lookup_total_correct _ _ _ HD). done. }
        cbn [length]. do 2 f_equal. lia.
      * rewrite filter_cons_False; [done|].
        rewrite (lookup_total_correct _ _ _ HD). by intros [_ ?].
Qed.

(** X9. When the slot and its neighbours have domains,
    [order_domain_values] returns the words of the domain of the slot,
    each once, in ascending order of the number of unassigned neighbours
    whose domain holds the same word; the domains are unchanged. *)
Theorem order_domain_values_sorted cw var (assignment : Assignment)
    (d : Domains) (D : gset string) :
  d !! var = Some D →
  (∀ n, n ∈ neighbors cw var → is_Some (d !! n)) →
  ∃ values,
    order_domain_values cw var assignment d = Ok (values, d) ∧
    values ≡ₚ elements D ∧
    StronglySorted (λ v w, (rule_out_count cw d assignment var v
                            ≤ rule_out_count cw d assignment var w)%nat)
                   values.
Proof.
  intros HD Hn. unfold order_domain_values.
  unfold bind at 1, get_domain at 1. rewrite HD.
  unfold bind at 1.
  rewrite (list_comp_fmap _ (rule_out_count cw d assignment var)).
  2:{ intros val _. rewrite count_rule_out_eq; [done|].
      intros n Hin%elem_of_elements. by apply Hn. }
  unfold ret. eexists. split; [done|]. split.
  - rewrite sorted_Permutation. rewrite fst_zip; [done|].
    by rewrite length_fmap.
  - set (cnt := rule_out_count cw d assignment var).
    set (lt := λ p q : string * nat, (p.2 <? q.2)%nat).
    rewrite zip_fmap_r.
    assert (∀ p, p ∈ sorted lt ((λ x, (x, cnt x)) <$> elements D) →
                 p.2 = cnt p.1) as Hkeys.
    { intros p. rewrite (sorted_Permutation lt).
      intros (w & -> & _)%list_elem_of_fmap. done. }
    pose proof (sorted_StronglySorted lt) as Hsorted.
    specialize (Hsorted
      ltac:(unfold lt; intros x y Hxy%Nat.ltb_lt; apply Nat.ltb_ge; lia)
      ltac:(unfold lt; intros x y z Hxz%Nat.ltb_lt; rewrite !Nat.ltb_lt; lia)
      ((λ x, (x, cnt x)) <$> elements D)).
    induction Hsorted as [|p ps Hps IH Hp]; [constructor|].
    cbn [fmap list_fmap]. constructor.
    + apply IH. intros q Hq. apply Hkeys. by right.
    + apply Forall_fmap. eapply Forall_impl.
      * apply Forall_and. split; [exact Hp|].
        apply Forall_forall. intros q Hq. apply Hkeys. right. exact Hq.
      * intros q [Hlt Hq]. cbn in *. apply Nat.ltb_ge in Hlt.
        rewrite <- Hq, <- (Hkeys p ltac:(left)). done.
Qed.

(** X7. When every slot has a domain and some slot is unassigned,
    [select_unassigned_variable] returns an unassigned slot of the grid
    with the fewest remaining words and, among the unassigned slots with
    that many words, the most neighbours. *)
Theorem select_unassigned_variable_mrv_degree cw (assignment : Assignment)
    (d : Domains) :
  (∀ v, v ∈ variables cw → is_Some (d !! v)) →
  (∃ v, v ∈ variables cw ∧ assignment !! v = None) →
  ∃ var,
    select_unassigned_variable cw assignment d = Ok (var, d) ∧
    var ∈ variables cw ∧ assignment !! var = None ∧
    ∀ u, u ∈ variables cw → assignment !! u = None →
      (size (d !!! var) ≤ size (d !!! u))%nat ∧
      (size (d !!! u) = size (d !!! var) →
       size (neighbors cw u) ≤ size (neighbors cw var))%nat.
Proof.
  intros Hd Hinc%assignment_complete_spec.
  destruct (select_unassigned_variable_minimal cw assignment d Hd Hinc)
    as (var & Hsel & Hvar & Hnone & Hmin).
  exists var. split_and!; [done..|]. intros u Hu Hunone.
  specialize (Hmin u Hu Hunone). rewrite compare_lt_iff in Hmin.
  cbn [fst snd] in Hmin. lia.
Qed.

(** X8. On an assignment that holds every slot of the grid,
    [select_unassigned_variable] raises [IndexError] ([temp[0]] of an
    empty list). *)
Theorem select_unassigned_variable_IndexError cw (assignment : Assignment)
    (d : Domains) :
  (∀ x, x ∈ variables cw → is_Some (assignment !! x)) →
  select_unassigned_variable cw assignment d = Raise IndexError.
Proof.
  intros Hall. unfold select_unassigned_variable.
  assert (variables cw ∖ dom assignment = ∅) as ->.
  { apply set_eq. intros x. rewrite elem_of_difference, elem_of_dom.
    split; [|by intros ?%elem_of_empty]. intros [Hx Hn]. destruct Hn. auto. }
  by rewrite elements_empty.
Qed.

Lemma words_distinct_submap (a a' : Assignment) :
  a ⊆ a' → words_distinct a' → words_distinct a.
Proof.
  intros Hsub Hd x y wx wy Hx Hy.
  apply (Hd x y); by eapply lookup_weaken.
Qed.

Lemma overlaps_agree_submap cw (a a' : Assignment) :
  a ⊆ a' → overlaps_agree cw a' → overlaps_agree cw a.
Proof.
  intros Hsub Hag x wx var Hx Hvar wvar i j Hwvar Ho.
  eapply (Hag x wx var); [by eapply lookup_weaken|done| |done].
  by eapply lookup_weaken.
Qed.

Lemma fits_submap (a a' : Assignment) : a ⊆ a' → fits a' → fits a.
Proof. intros Hsub Hfit x w Hx. apply Hfit. by eapply lookup_weaken. Qed.

(** X10. On a well-formed crossword and fitting words, [consistent]
    accepts every part of an assignment that it accepts: removing slots
    never turns [True] into [False]. *)
Theorem consistent_submap cw (a a' : Assignment) (d : Domains) :
  wf_crossword cw → fits a' → a ⊆ a' →
  consistent cw a' d = Ok (true, d) →
  consistent cw a d = Ok (true, d).
Proof.
  intros Hwf Hfit Hsub Hrun'.
  destruct (consistent_decides cw a' d Hwf Hfit) as (ok' & Hrun & Hok').
  rewrite Hrun' in Hrun. injection Hrun as <-.
  destruct Hok' as [[Hd Hag] _]; [done|].
  destruct (consistent_decides cw a d Hwf (fits_submap a a' Hsub Hfit))
    as (ok & Hrun & Hok).
  rewrite Hrun. do 2 f_equal. apply Hok. split.
  - by eapply words_distinct_submap.
  - by eapply overlaps_agree_submap.
Qed.

(** ** Completeness of the search *)

Lemma select_unassigned_variable_Ok cw (assignment : Assignment)
    (d d' : Domains) var :
  select_unassigned_variable cw assignment d = Ok (var, d') →
  var ∈ variables cw ∧ assignment !! var = None.
Proof.
  unfold select_unassigned_variable. intros Hrun.
  apply bind_Ok in Hrun as (num_val & d1 & _ & Hrun).
  destruct (sorted _ _) as [|t ts] eqn:Hsorted; [done|].
  apply ret_Ok in Hrun as [<- _].
  assert (t ∈ t :: ts) as Ht by left.
  rewrite <- Hsorted, sorted_Permutation in Ht.
  destruct t as [[v n] g]. cbn [fst].
  apply elem_of_zip_l, elem_of_zip_l in Ht.
  apply elem_of_elements, elem_of_difference in Ht as [Hv Hn].
  split; [done|]. by apply not_elem_of_dom.
Qed.

Lemma backtrack_loop_restores rec cw var values :
  (∀ (a1 a1' : Assignment) (d1 d1' : Domains),
     rec a1 d1 = Ok ((false, a1'), d1') → a1' = a1) →
  ∀ (a a' : Assignment) (d d' : Domains),
    a !! var = None →
    backtrack_loop rec cw var values a d = Ok ((false, a'), d') → a' = a.
Proof.
  intros Hrec. induction values as [|value values IH];
    intros a a' d d' Hnone Hrun; cbn [backtrack_loop] in Hrun.
  - by apply ret_Ok in Hrun as [[= <-] _].
  - assert (∀ d1 d2 a2, dict_del var (<[var := value]> a) d1 = Ok (a2, d2) →
                        a2 = a) as Hdel.
    { intros d1 d2 a2. unfold dict_del. rewrite lookup_insert_eq.
      intros [<- _]%ret_Ok. by apply delete_insert_id. }
    apply bind_Ok in Hrun as (ok & d1 & _ & Hrun). destruct ok.
    + rewrite insert_insert_eq in Hrun.
      apply bind_Ok in Hrun as ([found a1'] & d2 & Hcall & Hrun).
      destruct found; [by apply ret_Ok in Hrun as [[=] _]|].
      apply Hrec in Hcall as ->.
      apply bind_Ok in Hrun as (a2 & d3 & ->%Hdel & Hrun). by eapply IH.
    + apply bind_Ok in Hrun as (a2 & d3 & ->%Hdel & Hrun). by eapply IH.
Qed.

(** X11. When [backtrack] returns [None], the dict it was given holds
    what it held at the call: every tentative entry has been deleted
    again. *)
Theorem backtrack_restores_assignment fuel cw :
  ∀ (assignment a' : Assignment) (d d' : Domains),
    backtrack fuel cw assignment d = Ok ((false, a'), d') →
    a' = assignment.
Proof.
  induction fuel as [|fuel IH]; intros a a' d d' Hrun; [done|].
  cbn [backtrack] in Hrun.
  destruct (assignment_complete cw a); [by apply ret_Ok in Hrun as [[=] _]|].
  apply bind_Ok in Hrun as (var & d1 & [_ Hnone]%select_unassigned_variable_Ok
                              & Hrun).
  apply bind_Ok in Hrun as (values & d2 & _ & Hrun).
  by eapply (backtrack_loop_restores _ cw var values IH).
Qed.

Section backtrack_complete.
Context (cw : Crossword) (d : Domains).
Hypothesis Hwf : wf_crossword cw.
Hypothesis Hfit : domains_fit cw d.

Lemma backtrack_loop_complete rec var (D : gset string)
    (assignment : Assignment) :
  var ∈ variables cw → assignment !! var = None →
  admissible cw d assignment → d !! var = Some D →
  (∀ value, admissible cw d (<[var := value]> assignment) →
     ∃ r, rec (<[var := value]> assignment) d = Ok (r, d) ∧
          backtrack_post cw d (<[var := value]> assignment) r ∧
          (r.1 = false → dead_end cw d (<[var := value]> assignment))) →
  ∀ values, (∀ w, w ∈ values → w ∈ D) →
    ∀ r d', backtrack_loop rec cw var values assignment d = Ok (r, d') →
      r.1 = false →
      ∀ w, w ∈ values → dead_end cw d (<[var := w]> assignment).
Proof.
  intros Hvar Hnone (Hdom & Hdrawn & Hdist & Hagree) HD Hrec.
  induction values as [|value values IH]; intros Hvalues r d' Hrun Hr w Hw;
    [by apply elem_of_nil in Hw|].
  cbn [backtrack_loop] in Hrun.
  set (a1 := <[var := value]> assignment) in *.
  assert (drawn_from d a1) as Hdrawn1.
  { eapply drawn_from_insert; [done| |done]. apply Hvalues. left. }
  destruct (consistent_decides cw a1 d Hwf
              (drawn_from_fits cw d a1 Hfit Hdrawn1)) as (ok & Hcons & Hok).
  assert (dict_del var a1 d = Ok (assignment, d)) as Hdel.
  { unfold dict_del, a1. rewrite lookup_insert_eq.
    by rewrite delete_insert_id. }
  unfold bind at 1 in Hrun. rewrite Hcons in Hrun.
  assert (dead_end cw d a1 ∧
          backtrack_loop rec cw var values assignment d = Ok (r, d'))
    as [Hdead Hrest].
  { destruct ok.
    - assert (<[var := value]> a1 = a1) as Heq
        by (unfold a1; apply insert_insert_eq).
      rewrite Heq in Hrun.
      destruct (Hrec value) as ([found a'] & Hcall & Hpost & Hcomplete).
      { destruct Hok as [[Hdist1 Hagree1] _]; [done|].
        split_and!; [|done..]. unfold a1. rewrite dom_insert_L.
        apply union_subseteq. split; [|done]. by apply singleton_subseteq_l. }
      fold a1 in Hcall, Hpost, Hcomplete.
      unfold bind at 1 in Hrun. rewrite Hcall in Hrun. cbv beta iota in Hrun.
      destruct found.
      + apply ret_Ok in Hrun as [<- _]. done.
      + unfold backtrack_post in Hpost. cbn [fst snd] in Hpost. subst a'.
        unfold bind at 1 in Hrun. rewrite Hdel in Hrun.
        split; [by apply Hcomplete | done].
    - unfold bind at 1 in Hrun. rewrite Hdel in Hrun. split; [|done].
      intros a' Hsub _ (_ & _ & Hdist' & Hagree').
      assert (false = true) as [=]. apply Hok. split.
      + by eapply words_distinct_submap.
      + by eapply overlaps_agree_submap. }
  apply elem_of_cons in Hw as [->|Hw]; [done|].
  eapply IH; [|done..]. intros; apply Hvalues; by right.
Qed.

(** A failed search has tried everything: when [backtrack] returns
    [None], no total admissible assignment contains the one it was
    given. *)
Lemma backtrack_complete fuel :
  ∀ assignment : Assignment,
    admissible cw d assignment →
    (size (variables cw ∖ dom assignment) < fuel)%nat →
    ∃ r, backtrack fuel cw assignment d = Ok (r, d) ∧
         backtrack_post cw d assignment r ∧
         (r.1 = false → dead_end cw d assignment).
Proof.
  induction fuel as [|fuel IH]; intros assignment Hadm Hfuel; [lia|].
  destruct (backtrack_spec cw d Hwf Hfit (S fuel) assignment Hadm Hfuel)
    as (r & Hrun & Hpost).
  exists r. split_and!; [done..|]. intros Hr a' Hsub Htotal Hadm'.
  cbn [backtrack] in Hrun.
  destruct (assignment_complete cw assignment) eqn:Hcomplete.
  { apply ret_Ok in Hrun as [<- _]. done. }
  destruct Hfit as [Hdomd _].
  assert (∀ v, v ∈ variables cw → is_Some (d !! v)) as Hkeys.
  { intros v Hv. apply elem_of_dom. by rewrite Hdomd. }
  destruct (select_unassigned_variable_spec cw assignment d Hkeys Hcomplete)
    as (var & Hsel & Hvar & Hnone & _).
  unfold bind at 1 in Hrun. rewrite Hsel in Hrun.
  destruct (Hkeys var Hvar) as [D HD].
  destruct (order_domain_values_spec cw var assignment d D HD)
    as (values & Hord & Hperm).
  { intros n Hn. apply Hkeys. by eapply wf_neighbor_var. }
  unfold bind at 1 in Hrun. rewrite Hord in Hrun.
  assert (var ∈ dom a') as [w Hw]%elem_of_dom by (by rewrite Htotal).
  destruct Hadm' as (Hdom' & Hdrawn' & Hdist' & Hagree').
  destruct (Hdrawn' var w Hw) as (D' & HD' & HwD).
  rewrite HD in HD'. injection HD' as <-.
  eapply (backtrack_loop_complete (backtrack fuel cw) var D assignment
            Hvar Hnone Hadm HD); [| |exact Hrun|exact Hr| | | |].
  - intros value Hadm1. apply IH; [done|].
    eapply Nat.lt_le_trans; [|apply Nat.lt_succ_r, Hfuel].
    apply subset_size. rewrite dom_insert_L.
    replace (variables cw ∖ ({[var]} ∪ dom assignment))
      with ((variables cw ∖ dom assignment) ∖ {[var]}).
    2:{ apply set_eq. intros u.
        rewrite !elem_of_difference, elem_of_union, elem_of_singleton.
        tauto. }
    apply subset_difference_elem_of, elem_of_difference.
    split; [done|]. by apply not_elem_of_dom.
  - intros w0 Hw0. rewrite Hperm in Hw0. by apply elem_of_elements.
  - rewrite Hperm. apply elem_of_elements. exact HwD.
  - by apply insert_subseteq_l.
  - done.
  - done.
Qed.
End backtrack_complete.

(** X12. On a well-formed crossword, with a budget above the number of
    slots, [solve] is sound and complete: it returns; what it returns is
    a fill of the grid from the vocabulary (every slot a word of its
    length, overlaps agreeing, no word twice); and it returns [None]
    only when the grid has no such fill. *)
Theorem solve_complete fuel cw pick :
  wf_crossword cw → (size (variables cw) < fuel)%nat →
  ∃ r d', solve fuel cw pick (init_domains cw) = Ok (r, d') ∧
          (∀ assignment, r = Some assignment → solution cw assignment) ∧
          (r = None → ∀ assignment, ¬ solution cw assignment) ∧
          ((∃ assignment, solution cw assignment) → r ≠ None).
Proof.
  intros Hwf Hfuel. unfold solve.
  destruct (enforce_node_consistency_lookup cw) as (d1 & Hnode & Hd1).
  pose proof (node_consistency_domains_fit cw d1 Hnode) as Hfit1.
  unfold bind at 1. rewrite Hnode.
  destruct (ac3_returns cw None pick d1 Hwf Hfit1) as (r2 & d2 & Hac3).
  unfold bind at 1. rewrite Hac3.
  pose proof Hac3 as [q Hshr%ac3_run_shrinks]%ac3_Ok.
  pose proof (shrinks_domains_fit cw d1 d2 Hshr Hfit1) as Hfit2.
  destruct (backtrack_complete cw d2 Hwf Hfit2 fuel ∅)
    as ([found a] & Hbt & Hpost & Hcomplete).
  { split_and!.
    - rewrite dom_empty_L. apply empty_subseteq.
    - intros x w. by rewrite lookup_empty.
    - intros x y wx wy. by rewrite lookup_empty.
    - intros x wx var. by rewrite lookup_empty. }
  { rewrite dom_empty_L, difference_empty_L. done. }
  unfold bind. rewrite Hbt. eexists _, _. split; [done|].
  assert (found = false → ∀ assignment, ¬ solution cw assignment) as Hnone.
  { intros -> s (Htotal & Hwords & Hfits & Hdist & Hagree).
    apply (Hcomplete eq_refl s); [apply map_empty_subseteq|done|].
    split_and!; [by rewrite Htotal| |done..].
    eapply (ac3_preserves_drawn_from cw None pick r2 d1 d2); try done.
    intros x w Hx. rewrite Hd1.
    rewrite decide_True by (rewrite <- Htotal; apply elem_of_dom; eauto).
    eexists. split; [done|]. apply elem_of_filter. split; [by apply Hfits|].
    by eapply Hwords. }
  split_and!.
  - intros s. destruct found; [|done]. intros [= <-].
    destruct Hpost as (Htotal & _ & Hdrawn & Hdist & Hagree).
    split_and!; try done; [|by eapply drawn_from_fits].
    intros x w Hx. destruct (Hdrawn x w Hx) as (D2 & HD2 & Hw).
    specialize (Hshr x). rewrite HD2 in Hshr.
    destruct (d1 !! x) as [D1|] eqn:HD1; [|inversion Hshr].
    inversion Hshr as [? ? Hsub|]; subst. apply Hsub in Hw.
    rewrite Hd1 in HD1. case_decide; [|done]. injection HD1 as <-.
    by apply elem_of_filter in Hw as [_ ?].
  - destruct found; [done|]. intros _. by apply Hnone.
  - intros [s Hs]. destruct found; [done|]. by destruct (Hnone eq_refl s).
Qed.

(** ** [letter_grid] *)

Lemma set_letter_in_grid width height i j c (letters : Letters) (d : Domains) :
  shape width height letters → in_grid width height (i, j) →
  ∃ letters',
    set_letter i j c letters d = Ok (letters', d) ∧
    shape width height letters' ∧
    letter_at letters' i j = Some (Some c) ∧
    ∀ i' j', (i', j') ≠ (i, j) →
             letter_at letters' i' j' = letter_at letters i' j'.
Proof.
  intros [Hlen Hrows] [Hi Hj]. cbn [fst snd] in *.
  destruct (lookup_lt_is_Some_2 letters i) as [row Hrow]; [lia|].
  pose proof (Hrows i row Hrow) as Hw.
  unfold set_letter. rewrite Hrow. rewrite decide_True by lia.
  eexists. split; [done|]. split_and!.
  - split; [by rewrite length_insert|].
    intros i' row'. destruct (decide (i' = i)) as [->|Hne].
    + rewrite list_lookup_insert_eq by lia. intros [= <-].
      by rewrite length_insert.
    + rewrite list_lookup_insert_ne by done. apply Hrows.
  - unfold letter_at. rewrite list_lookup_insert_eq by lia.
    by rewrite list_lookup_insert_eq by lia.
  - intros i' j' Hne. unfold letter_at.
    destruct (decide (i' = i)) as [->|Hi'].
    + rewrite list_lookup_insert_eq by lia. rewrite Hrow.
      rewrite list_lookup_insert_ne; [done|]. intros ->. done.
    + by rewrite list_lookup_insert_ne by done.
Qed.

Lemma set_letter_off_grid width height i j c (letters : Letters)
    (d : Domains) :
  shape width height letters → ¬ in_grid width height (i, j) →
  set_letter i j c letters d = Raise IndexError.
Proof.
  intros [Hlen Hrows] Hout. unfold set_letter, in_grid in *.
  cbn [fst snd] in Hout.
  destruct (letters !! i) as [row|] eqn:Hrow; [|done].
  pose proof (Hrows i row Hrow) as Hw.
  apply lookup_lt_Some in Hrow.
  rewrite decide_False; [done|]. lia.
Qed.

Lemma str_index_lift word k (d : Domains) :
  (k < String.length word)%nat →
  ∃ c, String.get k word = Some c ∧ lift (str_index word k) d = Ok (c, d).
Proof.
  intros [c Hc]%string_get_is_Some. exists c. split; [done|].
  unfold lift, str_index. by rewrite Hc.
Qed.

(** The loop over one word returns when all its cells are in the
    grid. *)
Lemma write_word_in_grid width height variable word ks (d : Domains) :
  Forall (λ k, k < String.length word)%nat ks →
  Forall (λ k, in_grid width height (cell variable k)) ks →
  ∀ letters : Letters,
    shape width height letters →
    ∃ letters', write_word variable word ks letters d = Ok (letters', d)
                ∧ shape width height letters'.
Proof.
  induction ks as [|k ks IH]; intros Hks Hall letters Hshape;
    cbn [write_word]; [by eauto|].
  apply Forall_cons in Hks as [Hk Hks]. apply Forall_cons in Hall as [Hin Hall].
  destruct (str_index_lift word k d Hk) as (c & _ & Hc).
  unfold bind at 1. rewrite Hc. unfold bind at 1.
  destruct (set_letter_in_grid width height _ _ c letters d Hshape Hin)
    as (letters1 & Hset & Hshape1 & _).
  rewrite Hset. by apply IH.
Qed.

(** It raises [IndexError] at the first cell outside the grid. *)
Lemma write_word_off_grid width height variable word ks (d : Domains) :
  Forall (λ k, k < String.length word)%nat ks →
  ¬ Forall (λ k, in_grid width height (cell variable k)) ks →
  ∀ letters : Letters,
    shape width height letters →
    write_word variable word ks letters d = Raise IndexError.
Proof.
  induction ks as [|k ks IH]; intros Hks Hnot letters Hshape;
    cbn [write_word]; [by destruct Hnot|].
  apply Forall_cons in Hks as [Hk Hks].
  destruct (str_index_lift word k d Hk) as (c & _ & Hc).
  unfold bind at 1. rewrite Hc. unfold bind at 1.
  destruct (decide (in_grid width height (cell variable k))) as [Hin|Hout].
  - destruct (set_letter_in_grid width height _ _ c letters d Hshape Hin)
      as (letters1 & Hset & Hshape1 & _).
    rewrite Hset. apply IH; [done| |done].
    intros Hall. apply Hnot. by constructor.
  - by rewrite (set_letter_off_grid width height).
Qed.

Lemma Forall_seq_lt n : Forall (λ k, k < n)%nat (seq 0 n).
Proof. apply Forall_forall. intros k Hk%elem_of_seq. lia. Qed.

Lemma write_words_in_grid width height items (d : Domains) :
  Forall (λ p, Forall (λ k, in_grid width height (cell p.1 k))
                      (seq 0 (String.length p.2))) items →
  ∀ letters : Letters,
    shape width height letters →
    ∃ letters', write_words items letters d = Ok (letters', d)
                ∧ shape width height letters'.
Proof.
  induction items as [|[variable word] items IH]; intros Hall letters Hshape;
    cbn [write_words]; [by eauto|].
  apply Forall_cons in Hall as [Hin Hall]. cbn [fst snd] in Hin.
  destruct (write_word_in_grid width height variable word _ d
              (Forall_seq_lt _) Hin letters Hshape)
    as (letters1 & Hword & Hshape1).
  unfold bind. rewrite Hword. by apply IH.
Qed.

Lemma write_words_off_grid width height items (d : Domains) :
  ¬ Forall (λ p, Forall (λ k, in_grid width height (cell p.1 k))
                        (seq 0 (String.length p.2))) items →
  ∀ letters : Letters,
    shape width height letters →
    write_words items letters d = Raise IndexError.
Proof.
  induction items as [|[variable word] items IH]; intros Hnot letters Hshape;
    cbn [write_words]; [by destruct Hnot|].
  unfold bind.
  destruct (decide (Forall (λ k, in_grid width height (cell variable k))
                           (seq 0 (String.length word)))) as [Hin|Hout].
  - destruct (write_word_in_grid width height variable word _ d
                (Forall_seq_lt _) Hin letters Hshape)
      as (letters1 & Hword & Hshape1).
    rewrite Hword. apply IH; [|done].
    intros Hall. apply Hnot. by constructor.
  - by rewrite (write_word_off_grid width height variable word _ d
                  (Forall_seq_lt _) Hout letters Hshape).
Qed.

Lemma shape_replicate width height :
  shape width height (replicate height (replicate width None)).
Proof.
  split; [by rewrite length_replicate|].
  intros i row [-> _]%lookup_replicate. by rewrite length_replicate.
Qed.

(** X13. [letter_grid] returns an array of [height] rows of [width]
    cells when every letter of every assigned word lies in the grid, and
    raises [IndexError] when some letter lies outside it. *)
Theorem letter_grid_returns_iff_in_grid width height
    (assignment : Assignment) (d : Domains) :
  ((∀ s w k, assignment !! s = Some w → (k < String.length w)%nat →
             in_grid width height (cell s k)) →
   ∃ letters, letter_grid width height assignment d = Ok (letters, d) ∧
              shape width height letters) ∧
  (∀ s w k, assignment !! s = Some w → (k < String.length w)%nat →
            ¬ in_grid width height (cell s k) →
            letter_grid width height assignment d = Raise IndexError).
Proof.
  split.
  - intros Hall. apply write_words_in_grid; [|apply shape_replicate].
    apply Forall_forall. intros [s w] Hsw%elem_of_map_to_list.
    apply Forall_forall. intros k Hk%elem_of_seq. cbn [fst snd] in *.
    apply (Hall s w); [done|lia].
  - intros s w k Hs Hk Hout.
    apply (write_words_off_grid width height); [|apply shape_replicate].
    intros Hall. rewrite Forall_forall in Hall.
    specialize (Hall (s, w) ltac:(by apply elem_of_map_to_list)).
    rewrite Forall_forall in Hall. apply Hout, Hall, elem_of_seq.
    cbn [fst snd]. lia.
Qed.

Lemma shows_proper width height (letters : Letters)
    (W W' : nat → nat → Ascii.ascii → Prop) :
  (∀ i j c, W i j c ↔ W' i j c) →
  shows width height letters W → shows width height letters W'.
Proof.
  intros Heq [Hshape Hshow]. split; [done|]. intros i j c.
  by rewrite Hshow.
Qed.

(** One more letter on a grid, in a cell where every letter written so
    far is that letter. *)
Lemma set_letter_shows width height i j c (letters : Letters)
    (W : nat → nat → Ascii.ascii → Prop) (d : Domains) :
  shows width height letters W → in_grid width height (i, j) →
  (∀ c', W i j c' → c' = c) →
  ∃ letters',
    set_letter i j c letters d = Ok (letters', d) ∧
    shows width height letters'
      (λ i' j' c', W i' j' c' ∨ (i', j') = (i, j) ∧ c' = c).
Proof.
  intros [Hshape Hshow] Hin Hsame.
  destruct (set_letter_in_grid width height i j c letters d Hshape Hin)
    as (letters' & Hset & Hshape' & Hhere & Hother).
  exists letters'. split; [done|]. split; [done|].
  intros i' j' c'. destruct (decide ((i', j') = (i, j))) as [[= -> ->]|Hne].
  - rewrite Hhere. split.
    + intros [= ->]. by right.
    + intros [->%Hsame|[_ ->]]; done.
  - rewrite (Hother i' j' Hne), Hshow. split; [by left|].
    intros [?|[? _]]; done.
Qed.

Section letter_grid_content.
Context (width height : nat) (All : nat → nat → Ascii.ascii → Prop).
Hypothesis All_functional : ∀ i j c c', All i j c → All i j c' → c = c'.
Hypothesis All_in_grid : ∀ i j c, All i j c → in_grid width height (i, j).

Lemma write_word_shows variable word ks (d : Domains) :
  (∀ k c, k ∈ ks → String.get k word = Some c →
          All (cell variable k).1 (cell variable k).2 c) →
  Forall (λ k, k < String.length word)%nat ks →
  ∀ (letters : Letters) (W : nat → nat → Ascii.ascii → Prop),
    (∀ i j c, W i j c → All i j c) →
    shows width height letters W →
    ∃ letters',
      write_word variable word ks letters d = Ok (letters', d) ∧
      shows width height letters'
        (λ i j c, W i j c ∨
                  ∃ k, k ∈ ks ∧ cell variable k = (i, j) ∧
                       String.get k word = Some c).
Proof.
  induction ks as [|k ks IH]; intros Hall Hks letters W HW Hshows;
    cbn [write_word].
  - exists letters. split; [done|]. eapply shows_proper; [|done].
    intros i j c. split; [by left|].
    intros [?|(k & []%elem_of_nil & _)]. done.
  - apply Forall_cons in Hks as [Hk Hks].
    destruct (str_index_lift word k d Hk) as (c & Hget & Hc).
    unfold bind at 1. rewrite Hc. unfold bind at 1.
    pose proof (Hall k c ltac:(left) Hget) as Hcell.
    destruct (set_letter_shows width height (cell variable k).1
                (cell variable k).2 c letters W d Hshows)
      as (letters1 & Hset & Hshows1).
    { apply (All_in_grid _ _ c). exact Hcell. }
    { intros c' Hc'%HW. by eapply All_functional. }
    unfold cell in Hset. cbn [fst snd] in Hset. rewrite Hset.
    assert (∀ i j c',
              W i j c' ∨ (i, j) = ((cell variable k).1, (cell variable k).2)
                         ∧ c' = c → All i j c') as HW1.
    { intros i j c' [?%HW|[[= -> ->] ->]]; done. }
    destruct (IH ltac:(intros; apply Hall; [by right|done]) Hks letters1 _
                 HW1 Hshows1) as (letters' & Hrun & Hshows').
    exists letters'. split; [done|]. eapply shows_proper; [|done].
    intros i j c'. cbn beta. split.
    + intros [[?|[Heq ->]]|(k' & Hk' & Hcell' & Hget')]; [by left|..].
      * right. exists k. split; [left|]. split; [|done].
        by destruct (cell variable k).
      * right. exists k'. split; [by right|done].
    + intros [?|(k' & [->|Hk']%elem_of_cons & Hcell' & Hget')];
        [by left; left|..].
      * left. right. rewrite Hcell'. cbn. split; [done|]. congruence.
      * right. eauto.
Qed.

Lemma write_words_shows items (d : Domains) :
  (∀ s w k c, (s, w) ∈ items → String.get k w = Some c →
              All (cell s k).1 (cell s k).2 c) →
  ∀ (letters : Letters) (W : nat → nat → Ascii.ascii → Prop),
    (∀ i j c, W i j c → All i j c) →
    shows width height letters W →
    ∃ letters',
      write_words items letters d = Ok (letters', d) ∧
      shows width height letters'
        (λ i j c, W i j c ∨
                  ∃ s w k, (s, w) ∈ items ∧ cell s k = (i, j) ∧
                           String.get k w = Some c).
Proof.
  induction items as [|[s w] items IH]; intros Hall letters W HW Hshows;
    cbn [write_words].
  - exists letters. split; [done|]. eapply shows_proper; [|done].
    intros i j c. split; [by left|].
    intros [?|(s & w & k & []%elem_of_nil & _)]. done.
  - destruct (write_word_shows s w (seq 0 (String.length w)) d
                ltac:(intros k c _ Hget; apply (Hall s w k c); [left|done])
                (Forall_seq_lt _) letters W HW Hshows)
      as (letters1 & Hword & Hshows1).
    unfold bind. rewrite Hword.
    assert (∀ i j c,
              W i j c ∨ (∃ k, k ∈ seq 0 (String.length w) ∧
                              cell s k = (i, j) ∧ String.get k w = Some c)
              → All i j c) as HW1.
    { intros i j c [?%HW|(k & _ & Hcell & Hget)]; [done|].
      pose proof (Hall s w k c ltac:(left) Hget) as HA.
      by rewrite Hcell in HA. }
    destruct (IH ltac:(intros s' w' k c ? ?; apply (Hall s' w');
                         [by right|done])
                 letters1 _ HW1 Hshows1)
      as (letters' & Hrun & Hshows').
    exists letters'. split; [done|]. eapply shows_proper; [|done].
    intros i j c. cbn beta. split.
    + intros [[?|(k & _ & Hcell & Hget)]|(s' & w' & k & Hin & Hcell & Hget)].
      * by left.
      * right. exists s, w, k. split; [left|done].
      * right. exists s', w', k. split; [by right|done].
    + intros [?|(s' & w' & k & [[= -> ->]|Hin]%elem_of_cons & Hcell & Hget)].
      * by left; left.
      * left. right. exists k. split; [|done].
        apply elem_of_seq. split; [lia|]. cbn.
        apply string_get_is_Some. eauto.
      * right. eauto 10.
Qed.
End letter_grid_content.

(** X14. When the assigned words lie in the grid and agree wherever two
    letters share a cell, the array of [letter_grid] reads back every
    word: the cell of the [k]-th letter of a slot holds the [k]-th letter
    of its word, and a cell that no slot covers holds [None]. *)
Theorem letter_grid_content width height (assignment : Assignment)
    (d : Domains) :
  (∀ s w k, assignment !! s = Some w → (k < String.length w)%nat →
            in_grid width height (cell s k)) →
  (∀ s1 w1 k1 c1 s2 w2 k2 c2,
     assignment !! s1 = Some w1 → assignment !! s2 = Some w2 →
     String.get k1 w1 = Some c1 → String.get k2 w2 = Some c2 →
     cell s1 k1 = cell s2 k2 → c1 = c2) →
  ∃ letters,
    letter_grid width height assignment d = Ok (letters, d) ∧
    shape width height letters ∧
    (∀ s w k c, assignment !! s = Some w → String.get k w = Some c →
                letter_at letters (cell s k).1 (cell s k).2 = Some (Some c)) ∧
    (∀ i j, (i < height)%nat → (j < width)%nat →
            (∀ s w k, assignment !! s = Some w →
                      (k < String.length w)%nat → cell s k ≠ (i, j)) →
            letter_at letters i j = Some None).
Proof.
  intros Hin Hcompat.
  set (All := λ i j c, ∃ s w k, assignment !! s = Some w ∧
                                cell s k = (i, j) ∧ String.get k w = Some c).
  destruct (write_words_shows width height All) with
    (items := map_to_list assignment) (d := d)
    (letters := replicate height (replicate width (@None Ascii.ascii)))
    (W := λ (_ _ : nat) (_ : Ascii.ascii), False)
    as (letters & Hrun & Hshape & Hshow).
  - intros i j c c' (s1 & w1 & k1 & H1 & Hc1 & Hg1) (s2 & w2 & k2 & H2 & Hc2 & Hg2).
    eapply (Hcompat s1 w1 k1 c s2 w2 k2 c'); try done. congruence.
  - intros i j c (s & w & k & Hs & Hcell & Hget). rewrite <- Hcell.
    apply (Hin s w k Hs). apply string_get_is_Some. eauto.
  - intros s w k c Hsw%elem_of_map_to_list Hget. exists s, w, k.
    split; [done|]. split; [|done]. by destruct (cell s k).
  - done.
  - split; [apply shape_replicate|]. intros i j c. split; [|done].
    unfold letter_at. destruct (replicate _ _ !! i) as [row|] eqn:Hrow; [|done].
    apply lookup_replicate in Hrow as [-> _].
    by intros [[=] _]%lookup_replicate.
  - exists letters. split; [exact Hrun|]. split; [done|]. split.
    + intros s w k c Hs Hget. apply Hshow. right.
      exists s, w, k. split; [by apply elem_of_map_to_list|].
      split; [|done]. by destruct (cell s k).
    + intros i j Hi Hj Hfree.
      destruct Hshape as [Hlen Hrows].
      destruct (lookup_lt_is_Some_2 letters i) as [row Hrow]; [lia|].
      destruct (lookup_lt_is_Some_2 row j) as [o Ho];
        [rewrite (Hrows i row Hrow); lia|].
      unfold letter_at in *. rewrite Hrow, Ho. f_equal.
      destruct o as [c|]; [|done]. exfalso.
      assert (letter_at letters i j = Some (Some c)) as Hat.
      { unfold letter_at. by rewrite Hrow. }
      apply Hshow in Hat as [[]|(s & w & k & Hsw%elem_of_map_to_list & Hcell & Hget)].
      apply (Hfree s w k); [done| |done]. apply string_get_is_Some. eauto.
Qed.

(** ** The further properties on the example grids *)

Lemma revise_contract_witness :
  X0 ≠ Y0 ∧ overlaps cw0 X0 Y0 = Some (0, 0) ∧
  d0 !! X0 = Some {["AB"; "CD"]} ∧ d0 !! Y0 = Some {["AXX"; "EFF"]} ∧
  set_Forall (comparable 0 0 {["AXX"; "EFF"]}) ({["AB"; "CD"]} : gset string) ∧
  ∃ (revised : bool) (d' : Domains),
    revise cw0 X0 Y0 d0 = Ok (revised, d') ∧
    (∀ s, s ≠ X0 → d' !! s = d0 !! s) ∧
    (∃ Dx' : gset string,
       d' !! X0 = Some Dx' ∧
       ∀ w, w ∈ Dx' ↔
            w ∈ ({["AB"; "CD"]} : gset string) ∧
            ∃ w', w' ∈ ({["AXX"; "EFF"]} : gset string) ∧
                  letters_match w 0 w' 0) ∧
    (revised = true ↔
     ∃ w, w ∈ ({["AB"; "CD"]} : gset string) ∧
          ¬ supported 0 0 {["AXX"; "EFF"]} w).
Proof.
  split_and!; [compute_done..|].
  apply (revise_contract cw0 X0 Y0 0 0 {["AB"; "CD"]} {["AXX"; "EFF"]} d0);
    compute_done.
Defined.

Lemma revise_IndexError_witness :
  X3 ≠ Y3 ∧ overlaps cw3 X3 Y3 = Some (2, 0) ∧
  init_domains cw3 !! X3 = Some {["AB"; "CAT"; "TAG"]} ∧
  init_domains cw3 !! Y3 = Some {["AB"; "CAT"; "TAG"]} ∧
  "AB" ∈ ({["AB"; "CAT"; "TAG"]} : gset string) ∧
  "TAG" ∈ ({["AB"; "CAT"; "TAG"]} : gset string) ∧
  (String.length "AB" ≤ 2 ∨ String.length "TAG" ≤ 0)%nat ∧
  revise cw3 X3 Y3 (init_domains cw3) = Raise IndexError.
Proof.
  split_and!; [compute_done..|].
  apply (revise_IndexError cw3 X3 Y3 2 0 {["AB"; "CAT"; "TAG"]}
           {["AB"; "CAT"; "TAG"]} (init_domains cw3) "AB" "TAG");
    compute_done.
Defined.

Lemma enforce_node_consistency_twice_witness :
  enforce_node_consistency cw0 (init_domains cw0) = Ok (tt, d0) ∧
  ((∀ s w, s ∈ variables cw0 → w ∈ words cw0 →
           String.length w = var_length s) →
   enforce_node_consistency cw0 d0 = Ok (tt, d0)) ∧
  (∀ s w, s ∈ variables cw0 → w ∈ words cw0 →
          String.length w ≠ var_length s →
          enforce_node_consistency cw0 d0 = Raise KeyError).
Proof.
  split; [compute_done|].
  apply (enforce_node_consistency_twice cw0 d0). compute_done.
Defined.

Lemma ac3_changes_one_domain_witness :
  ac3 cw0 None (λ _, 0) d0
    = Ok (Some true, {[ X0 := {["AB"]}; Y0 := {["AXX"; "EFF"]} ]}) ∧
  (({[ X0 := {["AB"]}; Y0 := {["AXX"; "EFF"]} ]} : Domains) = d0 ∨
   ∃ x y, x ∈ variables cw0 ∧ y ∈ neighbors cw0 x ∧
          ∀ s, s ≠ x →
               ({[ X0 := {["AB"]}; Y0 := {["AXX"; "EFF"]} ]} : Domains) !! s
               = d0 !! s).
Proof.
  split; [compute_done|].
  apply (ac3_changes_one_domain cw0 None (λ _, 0) (Some true) d0).
  compute_done.
Defined.

Lemma ac3_False_empty_domain_witness :
  ac3 cw4 None (λ _, 0) d4 = Ok (Some false, {[ X0 := ∅; Y0 := ∅ ]}) ∧
  ∃ x (Dx : gset string),
    x ∈ variables cw4 ∧
    ({[ X0 := ∅; Y0 := ∅ ]} : Domains) !! x = Some ∅ ∧
    d4 !! x = Some Dx ∧ Dx ≠ ∅.
Proof.
  split; [compute_done|].
  apply (ac3_False_empty_domain cw4 None (λ _, 0) d4). compute_done.
Defined.

Lemma a0_overlaps_agree : overlaps_agree cw0 a0.
Proof.
  destruct (consistent_decides cw0 a0 d0 cw0_wf a0_fits) as (ok & Hrun & Hok).
  assert (consistent cw0 a0 d0 = Ok (true, d0)) as Htrue by compute_done.
  rewrite Htrue in Hrun. injection Hrun as <-. by apply Hok.
Qed.

Lemma a0_words_distinct : words_distinct a0.
Proof.
  destruct (consistent_decides cw0 a0 d0 cw0_wf a0_fits) as (ok & Hrun & Hok).
  assert (consistent cw0 a0 d0 = Ok (true, d0)) as Htrue by compute_done.
  rewrite Htrue in Hrun. injection Hrun as <-. by apply Hok.
Qed.

Lemma a0_lookup x w :
  a0 !! x = Some w → (x = X0 ∧ w = "AB") ∨ (x = Y0 ∧ w = "AXX").
Proof.
  unfold a0. destruct (decide (x = X0)) as [->|?];
    [|destruct (decide (x = Y0)) as [->|?]].
  - rewrite lookup_insert_eq. intros [= <-]. by left.
  - rewrite lookup_insert_ne by done. rewrite lookup_singleton_eq.
    intros [= <-]. by right.
  - rewrite lookup_insert_ne by done. by rewrite lookup_singleton_ne.
Qed.

Lemma a0_drawn_from_d0 : drawn_from d0 a0.
Proof.
  intros x w [[-> ->]|[-> ->]]%a0_lookup.
  - exists {["AB"; "CD"]}. split; compute_done.
  - exists {["AXX"; "EFF"]}. split; compute_done.
Qed.

Lemma ac3_keeps_solutions_witness :
  wf_crossword cw0 ∧
  ac3 cw0 None (λ _, 0) d0
    = Ok (Some true, {[ X0 := {["AB"]}; Y0 := {["AXX"; "EFF"]} ]}) ∧
  total cw0 a0 ∧ overlaps_agree cw0 a0 ∧ drawn_from d0 a0 ∧
  drawn_from {[ X0 := {["AB"]}; Y0 := {["AXX"; "EFF"]} ]} a0.
Proof.
  split; [exact cw0_wf|]. split; [compute_done|]. split; [compute_done|].
  split; [exact a0_overlaps_agree|]. split; [exact a0_drawn_from_d0|].
  apply (ac3_keeps_solutions cw0 None (λ _, 0) (Some true) d0 _ a0 cw0_wf);
    [compute_done | compute_done | exact a0_overlaps_agree
    | exact a0_drawn_from_d0].
Defined.

Lemma d0_keys v : v ∈ variables cw0 → is_Some (d0 !! v).
Proof.
  intros [->%elem_of_singleton| ->%elem_of_singleton]%elem_of_union;
    compute_done.
Qed.

Lemma select_unassigned_variable_mrv_degree_witness :
  (∀ v, v ∈ variables cw0 → is_Some (d0 !! v)) ∧
  (∃ v, v ∈ variables cw0 ∧ (∅ : Assignment) !! v = None) ∧
  ∃ var,
    select_unassigned_variable cw0 ∅ d0 = Ok (var, d0) ∧
    var ∈ variables cw0 ∧ (∅ : Assignment) !! var = None ∧
    ∀ u, u ∈ variables cw0 → (∅ : Assignment) !! u = None →
      (size (d0 !!! var) ≤ size (d0 !!! u))%nat ∧
      (size (d0 !!! u) = size (d0 !!! var) →
       size (neighbors cw0 u) ≤ size (neighbors cw0 var))%nat.
Proof.
  split; [exact d0_keys|].
  assert (∃ v, v ∈ variables cw0 ∧ (∅ : Assignment) !! v = None) as Hex.
  { exists X0. split; compute_done. }
  split; [exact Hex|].
  exact (select_unassigned_variable_mrv_degree cw0 ∅ d0 d0_keys Hex).
Defined.

Lemma a0_complete x : x ∈ variables cw0 → is_Some (a0 !! x).
Proof.
  intros [->%elem_of_singleton| ->%elem_of_singleton]%elem_of_union;
    compute_done.
Qed.

Lemma select_unassigned_variable_IndexError_witness :
  (∀ x, x ∈ variables cw0 → is_Some (a0 !! x)) ∧
  select_unassigned_variable cw0 a0 d0 = Raise IndexError.
Proof.
  split; [exact a0_complete|].
  exact (select_unassigned_variable_IndexError cw0 a0 d0 a0_complete).
Defined.

Lemma d0_neighbor_keys var n : n ∈ neighbors cw0 var → is_Some (d0 !! n).
Proof.
  intros Hn. apply d0_keys. by eapply (wf_neighbor_var cw0 cw0_wf).
Qed.

Lemma order_domain_values_sorted_witness :
  d0 !! X0 = Some {["AB"; "CD"]} ∧
  (∀ n, n ∈ neighbors cw0 X0 → is_Some (d0 !! n)) ∧
  ∃ values,
    order_domain_values cw0 X0 ∅ d0 = Ok (values, d0) ∧
    values ≡ₚ elements ({["AB"; "CD"]} : gset string) ∧
    StronglySorted (λ v w, (rule_out_count cw0 d0 ∅ X0 v
                            ≤ rule_out_count cw0 d0 ∅ X0 w)%nat)
                   values.
Proof.
  split; [compute_done|]. split; [exact (d0_neighbor_keys X0)|].
  apply (order_domain_values_sorted cw0 X0 ∅ d0 {["AB"; "CD"]});
    [compute_done | exact (d0_neighbor_keys X0)].
Defined.

Lemma consistent_submap_witness :
  wf_crossword cw0 ∧ fits a0 ∧ ({[ Y0 := "AXX" ]} : Assignment) ⊆ a0 ∧
  consistent cw0 a0 d0 = Ok (true, d0) ∧
  consistent cw0 {[ Y0 := "AXX" ]} d0 = Ok (true, d0).
Proof.
  assert (({[ Y0 := "AXX" ]} : Assignment) ⊆ a0) as Hsub.
  { unfold a0. apply insert_subseteq. by apply lookup_singleton_ne. }
  split; [exact cw0_wf|]. split; [exact a0_fits|]. split; [exact Hsub|].
  split; [compute_done|].
  apply (consistent_submap cw0 {[ Y0 := "AXX" ]} a0 d0 cw0_wf a0_fits Hsub).
  compute_done.
Defined.

Lemma backtrack_restores_assignment_witness :
  backtrack 2 cw0 {[ X0 := "CD" ]} d0 = Ok ((false, {[ X0 := "CD" ]}), d0) ∧
  ({[ X0 := "CD" ]} : Assignment) = {[ X0 := "CD" ]}.
Proof.
  split; [compute_done|].
  apply (backtrack_restores_assignment 2 cw0 {[ X0 := "CD" ]}
           {[ X0 := "CD" ]} d0 d0).
  compute_done.
Defined.

Lemma solve_complete_witness :
  wf_crossword cw0 ∧ (size (variables cw0) < 3)%nat ∧
  ∃ r d', solve 3 cw0 (λ _, 0) (init_domains cw0) = Ok (r, d') ∧
          (∀ assignment, r = Some assignment → solution cw0 assignment) ∧
          (r = None → ∀ assignment, ¬ solution cw0 assignment) ∧
          ((∃ assignment, solution cw0 assignment) → r ≠ None).
Proof.
  split; [exact cw0_wf|]. split; [compute_done|].
  apply (solve_complete 3 cw0 (λ _, 0) cw0_wf). compute_done.
Defined.

Lemma a0_in_grid s w k :
  a0 !! s = Some w → (k < String.length w)%nat → in_grid 2 3 (cell s k).
Proof.
  intros [[-> ->]|[-> ->]]%a0_lookup Hk; cbn in Hk; unfold in_grid, cell;
    cbn [fst snd var_i var_j var_direction X0 Y0];
    repeat case_decide; try done; lia.
Qed.

Lemma a0_cells_agree s1 w1 k1 c1 s2 w2 k2 c2 :
  a0 !! s1 = Some w1 → a0 !! s2 = Some w2 →
  String.get k1 w1 = Some c1 → String.get k2 w2 = Some c2 →
  cell s1 k1 = cell s2 k2 → c1 = c2.
Proof.
  intros [[-> ->]|[-> ->]]%a0_lookup [[-> ->]|[-> ->]]%a0_lookup H1 H2;
    unfold cell; cbn [fst snd var_i var_j var_direction X0 Y0];
    repeat case_decide; try done; intros Heq;
    pose proof (f_equal fst Heq) as Hi; pose proof (f_equal snd Heq) as Hj;
    cbn in Hi, Hj; subst; cbn in H1, H2; congruence.
Qed.

Lemma letter_grid_returns_iff_in_grid_witness :
  (∀ s w k, a0 !! s = Some w → (k < String.length w)%nat →
            in_grid 2 3 (cell s k)) ∧
  (∃ letters, letter_grid 2 3 a0 d0 = Ok (letters, d0) ∧ shape 2 3 letters) ∧
  a0 !! Y0 = Some "AXX" ∧ (2 < String.length "AXX")%nat ∧
  ¬ in_grid 2 2 (cell Y0 2) ∧
  letter_grid 2 2 a0 d0 = Raise IndexError.
Proof.
  split; [exact a0_in_grid|].
  split; [exact (proj1 (letter_grid_returns_iff_in_grid 2 3 a0 d0) a0_in_grid)|].
  split; [compute_done|]. split; [cbn; lia|].
  assert (¬ in_grid 2 2 (cell Y0 2)) as Hout by compute_done.
  split; [exact Hout|].
  apply (proj2 (letter_grid_returns_iff_in_grid 2 2 a0 d0) Y0 "AXX" 2);
    [compute_done | cbn; lia | exact Hout].
Defined.

Lemma letter_grid_content_witness :
  (∀ s w k, a0 !! s = Some w → (k < String.length w)%nat →
            in_grid 2 3 (cell s k)) ∧
  (∀ s1 w1 k1 c1 s2 w2 k2 c2,
     a0 !! s1 = Some w1 → a0 !! s2 = Some w2 →
     String.get k1 w1 = Some c1 → String.get k2 w2 = Some c2 →
     cell s1 k1 = cell s2 k2 → c1 = c2) ∧
  ∃ letters,
    letter_grid 2 3 a0 d0 = Ok (letters, d0) ∧
    shape 2 3 letters ∧
    (∀ s w k c, a0 !! s = Some w → String.get k w = Some c →
                letter_at letters (cell s k).1 (cell s k).2 = Some (Some c)) ∧
    (∀ i j, (i < 3)%nat → (j < 2)%nat →
            (∀ s w k, a0 !! s = Some w →
                      (k < String.length w)%nat → cell s k ≠ (i, j)) →
            letter_at letters i j = Some None).
Proof.
  split; [exact a0_in_grid|]. split; [exact a0_cells_agree|].
  exact (letter_grid_content 2 3 a0 d0 a0_in_grid a0_cells_agree).
Defined.

Lemma ac3_returns_after_node_consistency_witness :
  wf_crossword cw0 ∧
  enforce_node_consistency cw0 (init_domains cw0) = Ok (tt, d0) ∧
  ∃ r d', ac3 cw0 None (λ _, 1) d0 = Ok (r, d') ∧ domains_fit cw0 d'.
Proof.
  split; [exact cw0_wf|]. split; [compute_done|].
  apply (ac3_returns_after_node_consistency cw0 None (λ _, 1) d0 cw0_wf).
  compute_done.
Defined.
